(** * Banjo permission hook: scripts/permission-hook.py

    A shallow embedding of the hook script and of the parts of the Python
    runtime it calls (str.strip, bytes.decode, the json module, blocking
    sockets with a timeout), followed by the properties of the relay that the
    specification states.

    Layout:
    - [Py]    Python values and the library functions the script calls;
    - [Proc]  the process: environment, standard streams, the socket and its
              peer, and the exception monad the script runs in;
    - [Hook]  the script itself, [main], block by block;
    - the properties. *)

From Stdlib Require Import List Strings.String Strings.Ascii Strings.Byte.
From Stdlib Require Import NArith ZArith Bool Lia DecimalString.
Import ListNotations.
Local Open Scope N_scope.
Set Warnings "-register-all".

(* ===================================================================== *)
(** * Python values and library functions *)
(* ===================================================================== *)

Module Py.

(** A Python [str] is a sequence of code points, a [bytes] a sequence of
    bytes. *)
Definition str := list N.
Definition bytes := list byte.

(** ASCII literals.  [quoted] reads every apostrophe of the literal as a
    quotation mark, which is how JSON text is written down below. *)
Definition lit (s : string) : str := map Byte.to_N (list_byte_of_string s).
Definition quoted (s : string) : str :=
  map (fun c => if c =? 39 then 34 else c) (lit s).
Definition blit (s : string) : bytes := list_byte_of_string s.
Definition bquoted (s : string) : bytes :=
  map (fun b => if Byte.eqb b x27 then x22 else b) (blit s).

Fixpoint str_eqb (a b : str) : bool :=
  match a, b with
  | [], [] => true
  | x :: a', y :: b' => (x =? y) && str_eqb a' b'
  | _, _ => false
  end.

(** [not x] on a sequence: true when it is empty. *)
Definition is_empty {A} (l : list A) : bool :=
  match l with [] => true | _ => false end.

(** ** str.strip() *)

(** The code points [str.isspace] accepts; [str.strip()] removes exactly
    these from both ends. *)
Definition isspace (c : N) : bool :=
  ((9 <=? c) && (c <=? 13)) || ((28 <=? c) && (c <=? 32))
  || (c =? 0x85) || (c =? 0xa0) || (c =? 0x1680)
  || ((0x2000 <=? c) && (c <=? 0x200a))
  || (c =? 0x2028) || (c =? 0x2029) || (c =? 0x202f)
  || (c =? 0x205f) || (c =? 0x3000).

Fixpoint lstrip (s : str) : str :=
  match s with
  | c :: s' => if isspace c then lstrip s' else s
  | [] => []
  end.

Definition rstrip (s : str) : str := rev (lstrip (rev s)).
Definition strip (s : str) : str := rstrip (lstrip s).

(** ** bytes.decode("utf-8") *)

Definition is_cont (b : N) : bool := (0x80 <=? b) && (b <=? 0xbf).
Definition cont (b : N) : N := b - 0x80.

(** Strict UTF-8: no overlong forms, no surrogates, nothing above U+10FFFF.
    [None] stands for UnicodeDecodeError. *)
Fixpoint utf8_decode_N (b : list N) : option str :=
  match b with
  | [] => Some []
  | b0 :: r0 =>
    if b0 <? 0x80 then option_map (cons b0) (utf8_decode_N r0)
    else if b0 <? 0xc0 then None
    else if b0 <? 0xe0 then
      match r0 with
      | b1 :: r1 =>
        let c := (b0 - 0xc0) * 64 + cont b1 in
        if is_cont b1 && (0x80 <=? c)
        then option_map (cons c) (utf8_decode_N r1) else None
      | _ => None
      end
    else if b0 <? 0xf0 then
      match r0 with
      | b1 :: b2 :: r2 =>
        let c := (b0 - 0xe0) * 4096 + cont b1 * 64 + cont b2 in
        if is_cont b1 && is_cont b2 && (0x800 <=? c)
           && negb ((0xd800 <=? c) && (c <=? 0xdfff))
        then option_map (cons c) (utf8_decode_N r2) else None
      | _ => None
      end
    else if b0 <? 0xf8 then
      match r0 with
      | b1 :: b2 :: b3 :: r3 =>
        let c := (b0 - 0xf0) * 262144 + cont b1 * 4096 + cont b2 * 64 + cont b3 in
        if is_cont b1 && is_cont b2 && is_cont b3
           && (0x10000 <=? c) && (c <=? 0x10ffff)
        then option_map (cons c) (utf8_decode_N r3) else None
      | _ => None
      end
    else None
  end.

Definition decode_utf8 (b : bytes) : option str :=
  utf8_decode_N (map Byte.to_N b).

(** ** str.encode("utf-8") *)

Definition byte_of (n : N) : byte :=
  match Byte.of_N n with Some b => b | None => x00 end.

(** [None] stands for UnicodeEncodeError: a surrogate has no encoding. *)
Fixpoint encode_utf8 (s : str) : option bytes :=
  match s with
  | [] => Some []
  | c :: r =>
    let enc :=
      if c <? 0x80 then Some [byte_of c]
      else if c <? 0x800 then
        Some [byte_of (0xc0 + c / 64); byte_of (0x80 + c mod 64)]
      else if (0xd800 <=? c) && (c <=? 0xdfff) then None
      else if c <? 0x10000 then
        Some [byte_of (0xe0 + c / 4096); byte_of (0x80 + (c / 64) mod 64);
              byte_of (0x80 + c mod 64)]
      else if c <=? 0x10ffff then
        Some [byte_of (0xf0 + c / 262144); byte_of (0x80 + (c / 4096) mod 64);
              byte_of (0x80 + (c / 64) mod 64); byte_of (0x80 + c mod 64)]
      else None in
    match enc, encode_utf8 r with
    | Some b, Some b' => Some (b ++ b')
    | _, _ => None
    end
  end.

(** ** Values of the json module *)

(** A Python float is an IEEE 754 binary64: [(-1)^neg * m * 2^e] with
    [m < 2^53] and [-1074 <= e <= 971], a NaN or an infinity.  A finite
    float is kept normalised: [2^52 <= m], or [e = -1074]. *)
Inductive pyfloat :=
| Finite (neg : bool) (m : N) (e : Z)
| NaN
| Infinity (neg : bool).

(** What json.loads returns: None, bool, int, float, str, list, dict.  A dict
    keeps its keys in insertion order, each key once. *)
Inductive value :=
| PNone
| PBool (b : bool)
| PInt (z : Z)
| PFloat (f : pyfloat)
| PStr (s : str)
| PList (l : list value)
| PDict (d : list (str * value)).

Definition dict := list (str * value).

Fixpoint dict_lookup (d : dict) (k : str) : option value :=
  match d with
  | [] => None
  | (k', v) :: d' => if str_eqb k' k then Some v else dict_lookup d' k
  end.

(** [d[k] = v]: an existing key keeps its place. *)
Fixpoint dict_set (d : dict) (k : str) (v : value) : dict :=
  match d with
  | [] => [(k, v)]
  | (k', v') :: d' =>
    if str_eqb k' k then (k', v) :: d' else (k', v') :: dict_set d' k v
  end.

(* x == 0.0 *)
Definition float_is_zero (f : pyfloat) : bool :=
  match f with
  | Finite _ m _ => m =? 0
  | _ => false
  end.

(** Truth value of an object, as [if x], [not x] and [x or y] test it. *)
Definition truthy (v : value) : bool :=
  match v with
  | PNone => false
  | PBool b => b
  | PInt z => negb (z =? 0)%Z
  | PFloat f => negb (float_is_zero f)
  | PStr s => negb (is_empty s)
  | PList l => negb (is_empty l)
  | PDict d => negb (is_empty d)
  end.

(** [v == s] for a str [s]: only an equal str is equal to it. *)
Definition eq_str (v : value) (s : str) : bool :=
  match v with PStr t => str_eqb t s | _ => false end.

(** ** float(text) and float.__repr__ *)

Local Open Scope Z_scope.

(** [a / b] rounded to the nearest integer, ties to the even one. *)
Definition div_half_even (a b : Z) : Z :=
  let q := a / b in
  let r := a mod b in
  if 2 * r <? b then q
  else if b <? 2 * r then q + 1
  else if Z.even q then q else q + 1.

(** [x * 2^k <= y] for any integer [k]. *)
Definition shl_le (x k y : Z) : bool :=
  if 0 <=? k then x * 2 ^ k <=? y else x <=? y * 2 ^ (- k).

(** The integer part of the binary logarithm of [a / b], for positive [a]
    and [b]. *)
Definition floor_log2 (a b : Z) : Z :=
  let l := Z.log2 a - Z.log2 b in
  if shl_le b l a then l else l - 1.

(** The float nearest to [a / b] (positive), ties to even: what correctly
    rounded conversion of a decimal gives. *)
Definition round_binary64 (neg : bool) (a b : Z) : pyfloat :=
  let e := Z.max (floor_log2 a b - 52) (-1074) in
  let m := if 0 <=? e then div_half_even a (b * 2 ^ e)
           else div_half_even (a * 2 ^ (- e)) b in
  let (m, e) := if m =? 2 ^ 53 then (2 ^ 52, e + 1) else (m, e) in
  if 971 <? e then Infinity neg else Finite neg (Z.to_N m) e.

(** [float(text)] for the decimal [(-1)^neg * mant * 10^exp10]. *)
Definition float_of_decimal (neg : bool) (mant : N) (exp10 : Z) : pyfloat :=
  if (mant =? 0)%N then Finite neg 0 (-1074)
  else if 0 <=? exp10 then round_binary64 neg (Z.of_N mant * 10 ^ exp10) 1
  else round_binary64 neg (Z.of_N mant) (10 ^ (- exp10)).

(** A positive rational as numerator and denominator. *)
Definition pow_frac (base k : Z) : Z * Z :=
  if 0 <=? k then (base ^ k, 1) else (1, base ^ (- k)).

(** The integer part of the decimal logarithm of [a / b] (positive): the
    estimate from the binary logarithm is off by at most one. *)
Definition floor_log10 (a b : Z) : Z :=
  let est := floor_log2 a b * 30103 / 100000 in
  let reaches (c : Z) :=
    let (n, d) := pow_frac 10 c in n * b <=? a * d in
  if reaches (est + 1) then est + 1
  else if reaches est then est
  else est - 1.

(** The [k] significant digits nearest to the float [m * 2^e], as an integer
    [d] with the value [d * 10^t], if reading them back gives the float:
    they lie between the midpoints to the neighbouring floats (which
    themselves read back as the float when [m] is even).  Everything is
    counted in units of [2^(e-2) / 10^t]. *)
Definition digits_for (m e : Z) (k : Z) : option (Z * Z) :=
  let '(un, ud) := pow_frac 2 (e - 2) in
  let p := floor_log10 (4 * m * un) ud in
  let t := p - k + 1 in
  let '(tn, td) := pow_frac 10 t in
  let unit := un * td in
  let B := ud * tn in
  let A := 4 * m * unit in
  let below := if (m =? 2 ^ 52) && (-1074 <? e) then 1 else 2 in
  let lo := (4 * m - below) * unit in
  let hi := (4 * m + 2) * unit in
  let inside (d : Z) :=
    if Z.even m then (lo <=? d * B) && (d * B <=? hi)
    else (lo <? d * B) && (d * B <? hi) in
  let d0 := A / B in
  let r := A mod B in
  let d1 := d0 + 1 in
  let nearest :=
    if 2 * r <? B then d0
    else if B <? 2 * r then d1
    else if Z.even d0 then d0 else d1 in
  match inside d0, inside d1 with
  | true, true => Some (nearest, t)
  | true, false => Some (d0, t)
  | false, true => Some (d1, t)
  | false, false => None
  end.

(** The shortest digits that read back as the float: 17 always do. *)
Fixpoint shortest_digits (m e : Z) (k : Z) (tries : nat) : Z * Z :=
  match tries with
  | O => (0, 0)
  | S tries =>
    match digits_for m e k with
    | Some dt => dt
    | None => shortest_digits m e (k + 1) tries
    end
  end.

Local Close Scope Z_scope.

(** The decimal digits of a natural number, as characters. *)
Definition decimal (n : Z) : str :=
  map Byte.to_N (list_byte_of_string (NilZero.string_of_int (Z.to_int n))).

Fixpoint drop_zeros (rev_digits : str) : str :=
  match rev_digits with
  | c :: r => if c =? 48 then drop_zeros r else rev_digits
  | [] => []
  end.

Definition zeros (n : Z) : str := repeat 48 (Z.to_nat n).

(** [repr(x)] of a float: the shortest digits, written with an exponent when
    the decimal point would fall more than 16 places to the right of the
    first digit or 4 or more to the left of it. *)
Definition float_repr (f : pyfloat) : str :=
  match f with
  | NaN => [110; 97; 110]
  | Infinity neg => (if neg then [45] else []) ++ [105; 110; 102]
  | Finite neg m e =>
    (if neg then [45] else []) ++
    if m =? 0 then [48; 46; 48]
    else
      let (d, t) := shortest_digits (Z.of_N m) e 1 17 in
      let all := decimal d in
      let ds := rev (drop_zeros (rev all)) in
      let n := Z.of_nat (List.length ds) in
      let decpt := (Z.of_nat (List.length all) + t)%Z in
      if (decpt <=? -4)%Z || (16 <? decpt)%Z then
        let x := (decpt - 1)%Z in
        firstn 1 ds
        ++ (if (1 <? n)%Z then 46 :: skipn 1 ds else [])
        ++ [101; if (x <? 0)%Z then 45 else 43]
        ++ (if (Z.abs x <? 10)%Z then [48] else []) ++ decimal (Z.abs x)
      else if (decpt <=? 0)%Z then
        [48; 46] ++ zeros (- decpt) ++ ds
      else if (n <=? decpt)%Z then
        ds ++ zeros (decpt - n) ++ [46; 48]
      else
        firstn (Z.to_nat decpt) ds ++ 46 :: skipn (Z.to_nat decpt) ds
  end.

(** ** Exceptions *)

(** The exceptions that occur in a run of the script.  [socket.timeout] is
    a subclass of [socket.error] (OSError); [JSONDecodeError],
    [UnicodeDecodeError] and [UnicodeEncodeError] are unrelated subclasses
    of ValueError, so that a clause [except json.JSONDecodeError] catches
    neither a plain ValueError nor the other two. *)
Inductive exn :=
| SystemExit (code : Z)
| JSONDecodeError (msg : string)
| UnicodeDecodeError
| UnicodeEncodeError
| AttributeError
| SocketTimeout
| OSError (msg : string)
| RecursionError
| ValueError (msg : string).

Inductive result (A : Type) :=
| Ok (a : A)
| Raise (e : exn).
Arguments Ok {A} a.
Arguments Raise {A} e.

(** ** json.loads *)

(** The decoder of CPython's json module: json/decoder.py and
    json/scanner.py, with the strictness of the C scanner (ASCII digits and
    hexadecimal digits only).  An error keeps its message, not the position
    and the offending character that Python adds to it.

    Two limits of the interpreter are left out.  CPython raises
    RecursionError for a document nested deeper than its recursion limit
    allows, and ValueError for an integer with more digits than
    [sys.get_int_max_str_digits()]; the decoder below returns a result for
    such documents.  What is proved of the decoder therefore speaks of
    documents within these limits, and statements about a run take the
    result of the decoder as a hypothesis or allow for an exception that the
    script does not catch. *)

Definition ch (a : ascii) : N := N_of_ascii a.
Definition QUOTE : N := 34.
Definition BACKSLASH : N := 92.

(** WHITESPACE: space, tab, line feed, carriage return. *)
Definition is_ws (c : N) : bool :=
  (c =? 32) || (c =? 9) || (c =? 10) || (c =? 13).

Fixpoint skip_ws (s : str) : str :=
  match s with
  | c :: r => if is_ws c then skip_ws r else s
  | [] => []
  end.

(** [s[idx:idx+len(p)] == p], giving what follows. *)
Fixpoint strip_prefix (p s : str) : option str :=
  match p, s with
  | [], _ => Some s
  | x :: p', y :: s' => if x =? y then strip_prefix p' s' else None
  | _ :: _, [] => None
  end.

Definition is_digit (c : N) : bool := (48 <=? c) && (c <=? 57).

Definition hexval (c : N) : option N :=
  if is_digit c then Some (c - 48)
  else if (97 <=? c) && (c <=? 102) then Some (c - 87)
  else if (65 <=? c) && (c <=? 70) then Some (c - 55)
  else None.

(* _decode_uXXXX *)
Definition decode_uXXXX (h1 h2 h3 h4 : N) : option N :=
  match hexval h1, hexval h2, hexval h3, hexval h4 with
  | Some a, Some b, Some c, Some d => Some (((a * 16 + b) * 16 + c) * 16 + d)
  | _, _, _, _ => None
  end.

(** The BACKSLASH table of one-letter escapes. *)
Definition backslash (esc : N) : option N :=
  if esc =? QUOTE then Some QUOTE
  else if esc =? BACKSLASH then Some BACKSLASH
  else if esc =? ch "/" then Some (ch "/")
  else if esc =? ch "b" then Some 8
  else if esc =? ch "f" then Some 12
  else if esc =? ch "n" then Some 10
  else if esc =? ch "r" then Some 13
  else if esc =? ch "t" then Some 9
  else None.

Definition unterminated : exn :=
  JSONDecodeError "Unterminated string starting at".
Definition invalid_uXXXX : exn := JSONDecodeError "Invalid \uXXXX escape".

Definition push {A} (c : N) (r : result (str * A)) : result (str * A) :=
  match r with
  | Ok (t, x) => Ok (c :: t, x)
  | Raise e => Raise e
  end.

(** [scanstring(s, end)] with strict=True, [s] starting after the opening
    quote: the decoded string and what follows the closing quote. *)
Fixpoint scanstring (s : str) : result (str * str) :=
  match s with
  | [] => Raise unterminated
  | c :: r =>
    if c =? QUOTE then Ok ([], r)
    else if c =? BACKSLASH then
      match r with
      | [] => Raise unterminated
      | esc :: r1 =>
        if esc =? ch "u" then
          match r1 with
          | h1 :: h2 :: h3 :: h4 :: r2 =>
            match decode_uXXXX h1 h2 h3 h4 with
            | None => Raise invalid_uXXXX
            | Some uni =>
              if (0xd800 <=? uni) && (uni <=? 0xdbff) then
                match r2 with
                | b :: u :: r3 =>
                  if (b =? BACKSLASH) && (u =? ch "u") then
                    match r3 with
                    | g1 :: g2 :: g3 :: g4 :: r4 =>
                      match decode_uXXXX g1 g2 g3 g4 with
                      | None => Raise invalid_uXXXX
                      | Some uni2 =>
                        if (0xdc00 <=? uni2) && (uni2 <=? 0xdfff)
                        then push (0x10000 + ((uni - 0xd800) * 1024
                                              + (uni2 - 0xdc00)))
                                  (scanstring r4)
                        else push uni (scanstring r2)
                      end
                    | _ => Raise invalid_uXXXX
                    end
                  else push uni (scanstring r2)
                | _ => push uni (scanstring r2)
                end
              else push uni (scanstring r2)
            end
          | _ => Raise invalid_uXXXX
          end
        else
          match backslash esc with
          | Some c' => push c' (scanstring r1)
          | None => Raise (JSONDecodeError "Invalid \escape")
          end
      end
    else if c <=? 0x1f then
      Raise (JSONDecodeError "Invalid control character at")
    else push c (scanstring r)
  end.

(** A maximal run of ASCII digits, as digit values. *)
Fixpoint digits (s : str) : list N * str :=
  match s with
  | c :: r =>
    if is_digit c then let (ds, r') := digits r in (c - 48 :: ds, r')
    else ([], s)
  | [] => ([], [])
  end.

Definition digits_value (ds : list N) : N :=
  fold_left (fun a d => 10 * a + d) ds 0.

Definition signed (neg : bool) (z : Z) : Z := if neg then (- z)%Z else z.

(** The integer part of NUMBER_RE: an optional minus sign, then a single 0
    or a digit 1-9 followed by digits. *)
Definition match_integer (s : str) : option (bool * list N * str) :=
  let (neg, s1) :=
    match s with
    | c :: r => if c =? ch "-" then (true, r) else (false, s)
    | [] => (false, s)
    end in
  match s1 with
  | c :: r =>
    if c =? ch "0" then Some (neg, [0], r)
    else if is_digit c then
      let (ds, r') := digits r in Some (neg, c - 48 :: ds, r')
    else None
  | [] => None
  end.

(** The optional fraction of NUMBER_RE: a dot and at least one digit. *)
Definition match_frac (s : str) : option (list N) * str :=
  match s with
  | c :: r =>
    if c =? ch "." then
      match digits r with
      | ([], _) => (None, s)
      | (fs, r') => (Some fs, r')
      end
    else (None, s)
  | [] => (None, s)
  end.

(** The optional exponent of NUMBER_RE: e or E, an optional sign and at
    least one digit. *)
Definition match_exp (s : str) : option Z * str :=
  match s with
  | c :: r =>
    if (c =? ch "e") || (c =? ch "E") then
      let (neg, r1) :=
        match r with
        | c' :: r' =>
          if c' =? ch "-" then (true, r')
          else if c' =? ch "+" then (false, r')
          else (false, r)
        | [] => (false, r)
        end in
      match digits r1 with
      | ([], _) => (None, s)
      | (es, r2) => (Some (signed neg (Z.of_N (digits_value es))), r2)
      end
    else (None, s)
  | [] => (None, s)
  end.

(** NUMBER_RE.match and the conversion that follows it: [int(integer)] when
    there is neither fraction nor exponent, [float(...)] otherwise. *)
Definition match_number (s : str) : option (value * str) :=
  match match_integer s with
  | None => None
  | Some (neg, ds, r) =>
    let (frac, r1) := match_frac r in
    let (exp, r2) := match_exp r1 in
    match frac, exp with
    | None, None => Some (PInt (signed neg (Z.of_N (digits_value ds))), r2)
    | _, _ =>
      let fs := match frac with Some fs => fs | None => [] end in
      let e := match exp with Some e => e | None => 0%Z end in
      Some (PFloat (float_of_decimal neg (digits_value (ds ++ fs))
                                     (e - Z.of_nat (List.length fs))), r2)
    end
  end.

Definition expecting_value : exn := JSONDecodeError "Expecting value".
Definition expecting_name : exn :=
  JSONDecodeError "Expecting property name enclosed in double quotes".
Definition expecting_colon : exn := JSONDecodeError "Expecting ':' delimiter".
Definition expecting_comma : exn := JSONDecodeError "Expecting ',' delimiter".

(** [scan_once], [JSONObject] and [JSONArray]; [object_items] and
    [array_items] are their [while True] loops.  [fuel] bounds the number
    of nested calls and makes the definition structural: three calls per
    character of the text are never used up ([scan_once_fuel] below), so
    it stands for no limit of the interpreter. *)
Fixpoint scan_once (fuel : nat) (s : str) : result (value * str) :=
  match fuel with
  | O => Raise RecursionError
  | S fuel =>
    match s with
    | [] => Raise expecting_value
    | nextchar :: r =>
      if nextchar =? QUOTE then
        match scanstring r with
        | Ok (t, r') => Ok (PStr t, r')
        | Raise e => Raise e
        end
      else if nextchar =? ch "{" then JSONObject fuel r
      else if nextchar =? ch "[" then JSONArray fuel r
      else
        match strip_prefix (lit "null") s with
        | Some r' => Ok (PNone, r')
        | None =>
        match strip_prefix (lit "true") s with
        | Some r' => Ok (PBool true, r')
        | None =>
        match strip_prefix (lit "false") s with
        | Some r' => Ok (PBool false, r')
        | None =>
        match match_number s with
        | Some res => Ok res
        | None =>
        match strip_prefix (lit "NaN") s with
        | Some r' => Ok (PFloat NaN, r')
        | None =>
        match strip_prefix (lit "Infinity") s with
        | Some r' => Ok (PFloat (Infinity false), r')
        | None =>
        match strip_prefix (lit "-Infinity") s with
        | Some r' => Ok (PFloat (Infinity true), r')
        | None => Raise expecting_value
        end end end end end end end
    end
  end

with JSONObject (fuel : nat) (s : str) : result (value * str) :=
  match fuel with
  | O => Raise RecursionError
  | S fuel =>
    match skip_ws s with
    | nextchar :: r =>
      if nextchar =? ch "}" then Ok (PDict [], r)
      else if nextchar =? QUOTE then object_items fuel [] r
      else Raise expecting_name
    | [] => Raise expecting_name
    end
  end

with object_items (fuel : nat) (pairs : dict) (s : str)
  : result (value * str) :=
  match fuel with
  | O => Raise RecursionError
  | S fuel =>
    match scanstring s with
    | Raise e => Raise e
    | Ok (key, s1) =>
      match skip_ws s1 with
      | c :: s2 =>
        if c =? ch ":" then
          match scan_once fuel (skip_ws s2) with
          | Raise e => Raise e
          | Ok (v, s3) =>
            let pairs := dict_set pairs key v in
            match skip_ws s3 with
            | nextchar :: s4 =>
              if nextchar =? ch "}" then Ok (PDict pairs, s4)
              else if nextchar =? ch "," then
                match skip_ws s4 with
                | q :: s5 =>
                  if q =? QUOTE then object_items fuel pairs s5
                  else Raise expecting_name
                | [] => Raise expecting_name
                end
              else Raise expecting_comma
            | [] => Raise expecting_comma
            end
          end
        else Raise expecting_colon
      | [] => Raise expecting_colon
      end
    end
  end

with JSONArray (fuel : nat) (s : str) : result (value * str) :=
  match fuel with
  | O => Raise RecursionError
  | S fuel =>
    match skip_ws s with
    | nextchar :: r =>
      if nextchar =? ch "]" then Ok (PList [], r)
      else array_items fuel [] (nextchar :: r)
    | [] => array_items fuel [] []
    end
  end

with array_items (fuel : nat) (values : list value) (s : str)
  : result (value * str) :=
  match fuel with
  | O => Raise RecursionError
  | S fuel =>
    match scan_once fuel s with
    | Raise e => Raise e
    | Ok (v, s1) =>
      let values := values ++ [v] in
      match skip_ws s1 with
      | nextchar :: s2 =>
        if nextchar =? ch "]" then Ok (PList values, s2)
        else if nextchar =? ch "," then array_items fuel values (skip_ws s2)
        else Raise expecting_comma
      | [] => Raise expecting_comma
      end
    end
  end.

(** [json.loads(s)] for a str: [JSONDecoder.decode] after the check for a
    byte order mark. *)
Definition json_loads (s : str) : result value :=
  match s with
  | 0xfeff :: _ =>
    Raise (JSONDecodeError "Unexpected UTF-8 BOM (decode using utf-8-sig)")
  | _ =>
    match scan_once (3 * List.length s + 3) (skip_ws s) with
    | Raise e => Raise e
    | Ok (obj, r) =>
      match skip_ws r with
      | [] => Ok obj
      | _ :: _ => Raise (JSONDecodeError "Extra data")
      end
    end
  end.

(** ** json.dumps *)

Definition hexdigit (n : N) : N := if n <? 10 then 48 + n else 87 + n.

(* '{0:04x}'.format(n) for n < 0x10000 *)
Definition hex4 (n : N) : str :=
  [hexdigit (n / 4096 mod 16); hexdigit (n / 256 mod 16);
   hexdigit (n / 16 mod 16); hexdigit (n mod 16)].

Definition u_escape (n : N) : str := BACKSLASH :: ch "u" :: hex4 n.

(** The replacement [py_encode_basestring_ascii] makes for one character:
    ESCAPE_DCT for the backslash, the quotation mark and the control
    characters, the character itself from space to tilde, a \u escape (a
    surrogate pair above U+FFFF) for everything else. *)
Definition escape_ascii (c : N) : str :=
  if c =? BACKSLASH then [BACKSLASH; BACKSLASH]
  else if c =? QUOTE then [BACKSLASH; QUOTE]
  else if c =? 8 then [BACKSLASH; ch "b"]
  else if c =? 12 then [BACKSLASH; ch "f"]
  else if c =? 10 then [BACKSLASH; ch "n"]
  else if c =? 13 then [BACKSLASH; ch "r"]
  else if c =? 9 then [BACKSLASH; ch "t"]
  else if (32 <=? c) && (c <=? 126) then [c]
  else if c <? 0x10000 then u_escape c
  else
    let n := c - 0x10000 in
    u_escape (0xd800 + (n / 1024) mod 1024) ++ u_escape (0xdc00 + n mod 1024).

Definition encode_basestring_ascii (s : str) : str :=
  QUOTE :: flat_map escape_ascii s ++ [QUOTE].

(* int.__repr__ *)
Definition int_repr (z : Z) : str :=
  lit (NilZero.string_of_int (Z.to_int z)).

(* ', '.join(items) *)
Fixpoint join_comma (items : list str) : str :=
  match items with
  | [] => []
  | [x] => x
  | x :: rest => x ++ lit ", " ++ join_comma rest
  end.

(** The encoder's [floatstr]: [float.__repr__], but its own spelling of
    NaN and the infinities. *)
Definition float_dumps (f : pyfloat) : str :=
  match f with
  | Finite _ _ _ => float_repr f
  | NaN => lit "NaN"
  | Infinity false => lit "Infinity"
  | Infinity true => lit "-Infinity"
  end.

(** [json.dumps(obj)] with its defaults: ASCII only, [", "] between items
    and [": "] after keys, keys in the order of the dict. *)
Fixpoint json_dumps (obj : value) : str :=
  match obj with
  | PNone => lit "null"
  | PBool true => lit "true"
  | PBool false => lit "false"
  | PInt z => int_repr z
  | PFloat f => float_dumps f
  | PStr s => encode_basestring_ascii s
  | PList l => ch "[" :: join_comma (map json_dumps l) ++ [ch "]"]
  | PDict d =>
    ch "{" ::
    join_comma
      (map (fun kv => encode_basestring_ascii (fst kv) ++ lit ": "
                      ++ json_dumps (snd kv)) d)
    ++ [ch "}"]
  end.

End Py.

(* ===================================================================== *)
(** * The process and its surroundings *)
(* ===================================================================== *)

Module Proc.
Import Py.

(** ** What the script is run against *)

(** How a blocking socket call answers: after [after] milliseconds it would
    return [a], or fail with an OSError.  Whether the caller is still waiting
    by then depends on the timeout of the socket. *)
Inductive reply (A : Type) :=
| Completes (after : N) (a : A)
| Fails (after : N) (msg : string).
Arguments Completes {A} after a.
Arguments Fails {A} after msg.

Definition delay {A} (r : reply A) : N :=
  match r with Completes t _ => t | Fails t _ => t end.

(** The world of one invocation: the value of BANJO_PERMISSION_SOCKET (if
    set), the text on standard input, and the behaviour of the system and of
    the peer behind the socket.  [on_recv] lists what the successive calls of
    [recv] give (each at most the 4096 bytes asked for; [Completes _ []] is a
    peer that has closed); once the list is used up the peer has closed. *)
Record world := {
  environ : option str;
  stdin : str;
  on_socket : option string;
  on_connect : reply unit;
  on_sendall : reply unit;
  on_recv : list (reply bytes)
}.

(** ** The state of the process *)

Inductive sock_state := NoSocket | Created | Connected | Closed.

(** The calls the script makes outside itself, in order. *)
Inductive call :=
| CGetenv (name : str)
| CReadStdin
| CSocket
| CSetTimeout (seconds : N)
| CConnect (path : str)
| CSendall (data : bytes)
| CRecv (bufsize : N)
| CClose.

(** A line on the error channel: [print(f"{text}{e}", file=sys.stderr)], or
    the traceback the interpreter prints for an exception nobody caught. *)
Inductive line :=
| Diagnostic (text : string) (detail : option exn)
| Traceback (e : exn).

Record state := {
  stdout : str;
  stderr : list line;
  calls : list call;
  clock : N;
  timeout : option N;
  sock : sock_state;
  inbox : list (reply bytes)
}.

Definition initial (w : world) : state :=
  {| stdout := []; stderr := []; calls := []; clock := 0; timeout := None;
     sock := NoSocket; inbox := on_recv w |}.

Definition log (c : call) (s : state) : state :=
  {| stdout := stdout s; stderr := stderr s; calls := calls s ++ [c];
     clock := clock s; timeout := timeout s; sock := sock s;
     inbox := inbox s |}.

Definition tick (t : N) (s : state) : state :=
  {| stdout := stdout s; stderr := stderr s; calls := calls s;
     clock := clock s + t; timeout := timeout s; sock := sock s;
     inbox := inbox s |}.

Definition set_timeout (t : option N) (s : state) : state :=
  {| stdout := stdout s; stderr := stderr s; calls := calls s;
     clock := clock s; timeout := t; sock := sock s; inbox := inbox s |}.

Definition set_sock (k : sock_state) (s : state) : state :=
  {| stdout := stdout s; stderr := stderr s; calls := calls s;
     clock := clock s; timeout := timeout s; sock := k; inbox := inbox s |}.

Definition set_inbox (l : list (reply bytes)) (s : state) : state :=
  {| stdout := stdout s; stderr := stderr s; calls := calls s;
     clock := clock s; timeout := timeout s; sock := sock s; inbox := l |}.

Definition write_stdout (t : str) (s : state) : state :=
  {| stdout := stdout s ++ t; stderr := stderr s; calls := calls s;
     clock := clock s; timeout := timeout s; sock := sock s;
     inbox := inbox s |}.

Definition write_stderr (l : line) (s : state) : state :=
  {| stdout := stdout s; stderr := stderr s ++ [l]; calls := calls s;
     clock := clock s; timeout := timeout s; sock := sock s;
     inbox := inbox s |}.

(** ** Computations that change the state and may raise *)

Definition M (A : Type) : Type := state -> result A * state.

Definition ret {A} (a : A) : M A := fun s => (Ok a, s).
Definition raise {A} (e : exn) : M A := fun s => (Raise e, s).
Definition bind {A B} (c : M A) (k : A -> M B) : M B :=
  fun s =>
    match c s with
    | (Ok a, s') => k a s'
    | (Raise e, s') => (Raise e, s')
    end.
Definition effect (f : state -> state) : M unit := fun s => (Ok tt, f s).
Definition lift {A} (r : result A) : M A := fun s => (r, s).

Declare Scope py_scope.
Delimit Scope py_scope with py.
Notation "x <- c ;; k" := (bind c (fun x => k))
  (at level 61, c at next level, right associativity) : py_scope.
Notation "c ;; k" := (bind c (fun _ => k))
  (at level 61, right associativity) : py_scope.
Local Open Scope py_scope.

(** [try: body except ...]: [handlers] gives the handler of the first
    except clause that matches, if one does. *)
Definition try_except {A} (body : M A) (handlers : exn -> option (M A))
  : M A :=
  fun s =>
    match body s with
    | (Raise e, s') =>
      match handlers e with
      | Some h => h s'
      | None => (Raise e, s')
      end
    | r => r
    end.

(** ** The library calls of the script *)

Definition BANJO_PERMISSION_SOCKET : str := lit "BANJO_PERMISSION_SOCKET".

(* os.environ.get("BANJO_PERMISSION_SOCKET") *)
Definition os_environ_get (w : world) : M (option str) :=
  effect (log (CGetenv BANJO_PERMISSION_SOCKET)) ;; ret (environ w).

Definition sys_exit {A} (code : Z) : M A := raise (SystemExit code).

(* json.load(sys.stdin) *)
Definition json_load_stdin (w : world) : M value :=
  effect (log CReadStdin) ;; lift (json_loads (stdin w)).

(* print(text) *)
Definition print (text : str) : M unit :=
  effect (write_stdout (text ++ [10])).

(* print(f"{text}{e}", file=sys.stderr) *)
Definition print_stderr (text : string) (detail : option exn) : M unit :=
  effect (write_stderr (Diagnostic text detail)).

(* obj.get(key, default): only a dict has the method *)
Definition get (obj : value) (key : str) (default : value) : M value :=
  match obj with
  | PDict d =>
    ret (match dict_lookup d key with Some v => v | None => default end)
  | _ => raise AttributeError
  end.

(** A blocking call on the socket: it raises socket.timeout once the timeout
    of the socket has passed without the call completing. *)
Definition blocking {A} (r : reply A) : M A :=
  fun s =>
    let finish :=
      match r with
      | Completes t a => (Ok a, tick t s)
      | Fails t msg => (Raise (OSError msg), tick t s)
      end in
    match timeout s with
    | Some limit =>
      if limit <=? delay r then (Raise SocketTimeout, tick limit s)
      else finish
    | None => finish
    end.

(* socket.socket(socket.AF_UNIX, socket.SOCK_STREAM) *)
Definition socket_socket (w : world) : M unit :=
  effect (log CSocket) ;;
  match on_socket w with
  | Some msg => raise (OSError msg)
  | None => effect (set_sock Created)
  end.

(* sock.settimeout(seconds) *)
Definition settimeout (seconds : N) : M unit :=
  effect (log (CSetTimeout seconds)) ;;
  effect (set_timeout (Some (seconds * 1000))).

(* sock.connect(path) *)
Definition connect (w : world) (path : str) : M unit :=
  effect (log (CConnect path)) ;;
  blocking (on_connect w) ;;
  effect (set_sock Connected).

(* sock.sendall(data) *)
Definition sendall (w : world) (data : bytes) : M unit :=
  effect (log (CSendall data)) ;;
  blocking (on_sendall w).

(* sock.recv(bufsize) *)
Definition recv (bufsize : N) : M bytes :=
  effect (log (CRecv bufsize)) ;;
  fun s =>
    match inbox s with
    | [] => (Ok [], s)
    | r :: rest => blocking r (set_inbox rest s)
    end.

(* sock.close() *)
Definition close : M unit :=
  effect (log CClose) ;; effect (set_sock Closed).

(* b"\n" in data *)
Definition has_newline (data : bytes) : bool :=
  existsb (Byte.eqb x0a) data.

(* data.decode("utf-8") *)
Definition decode (data : bytes) : M str :=
  match decode_utf8 data with
  | Some t => ret t
  | None => raise UnicodeDecodeError
  end.

(* text.encode("utf-8") *)
Definition encode (text : str) : M bytes :=
  match encode_utf8 text with
  | Some b => ret b
  | None => raise UnicodeEncodeError
  end.

(** ** Running the process *)

(** The exit status and the final state of a process whose main program is
    [c]: the code of SystemExit; 1, after a traceback on the error channel,
    for any other exception; 0 when the program runs to its end. *)
Definition terminate (r : result unit * state) : Z * state :=
  match r with
  | (Ok _, s) => (0%Z, s)
  | (Raise (SystemExit code), s) => (code, s)
  | (Raise e, s) => (1%Z, write_stderr (Traceback e) s)
  end.

End Proc.

(* ===================================================================== *)
(** * The script *)
(* ===================================================================== *)

Module Hook.
Import Py Proc.
Local Open Scope py_scope.

Section Script.
Variable w : world.

(** Lines 23-26: the socket path, or exit. *)
Definition resolve_endpoint : M str :=
  socket_path <- os_environ_get w ;;
  match socket_path with
  | None => sys_exit 0
  | Some socket_path =>
    if is_empty socket_path then sys_exit 0 else ret socket_path
  end.

(** Lines 28-45: the request built from standard input. *)
Definition parse_query : M value :=
  input_data <-
    try_except (json_load_stdin w)
      (fun e =>
         match e with
         | JSONDecodeError _ =>
           Some (print_stderr "Error: Invalid JSON input: " (Some e) ;;
                 sys_exit 1)
         | _ => None
         end) ;;
  tool_name <- get input_data (lit "tool_name") (PStr []) ;;
  tool_input <- get input_data (lit "tool_input") (PDict []) ;;
  tool_use_id <- get input_data (lit "tool_use_id") (PStr []) ;;
  session_id <- get input_data (lit "session_id") (PStr []) ;;
  ret (PDict [(lit "tool_name", tool_name);
              (lit "tool_input", tool_input);
              (lit "tool_use_id", tool_use_id);
              (lit "session_id", session_id)]).

(** Lines 59-65, the [while True] loop.  Every turn but the last takes one
    entry of the inbox, so [fuel] above the length of the inbox is never
    used up ([recv_loop_fuel] below). *)
Fixpoint recv_loop (fuel : nat) (response_bytes : bytes) : M bytes :=
  match fuel with
  | O => ret response_bytes
  | S fuel =>
    chunk <- recv 4096 ;;
    if is_empty chunk then ret response_bytes
    else
      let response_bytes := response_bytes ++ chunk in
      if has_newline response_bytes then ret response_bytes
      else recv_loop fuel response_bytes
  end.

(** Lines 49-67: connect, send the request, read the response, close. *)
Definition exchange (socket_path : str) (request : value) : M bytes :=
  socket_socket w ;;
  settimeout 60 ;;
  connect w socket_path ;;
  request_text <- encode (json_dumps request) ;;
  let request_bytes := request_text ++ [x0a] in
  sendall w request_bytes ;;
  response_bytes <- (fun s => recv_loop (S (List.length (inbox s))) [] s) ;;
  close ;;
  ret response_bytes.

(** Lines 69-73: the response as a value. *)
Definition parse_response (response_bytes : bytes) : M value :=
  (if is_empty response_bytes
   then print_stderr "Error: Empty response from Banjo" None ;; sys_exit 0
   else ret tt) ;;
  text <- decode response_bytes ;;
  lift (json_loads (strip text)).

Definition allow_output : value :=
  PDict [(lit "hookSpecificOutput",
          PDict [(lit "hookEventName", PStr (lit "PermissionRequest"));
                 (lit "decision",
                  PDict [(lit "behavior", PStr (lit "allow"))])])].

Definition deny_output (message : value) : value :=
  PDict [(lit "hookSpecificOutput",
          PDict [(lit "hookEventName", PStr (lit "PermissionRequest"));
                 (lit "decision",
                  PDict [(lit "behavior", PStr (lit "deny"));
                         (lit "message", message)])])].

(* message or "Permission denied by user" *)
Definition message_or_default (message : value) : value :=
  if truthy message then message
  else PStr (lit "Permission denied by user").

(** Lines 74-100: from the decision to the output. *)
Definition emit (response : value) : M unit :=
  decision <- get response (lit "decision") (PStr (lit "ask")) ;;
  message <- get response (lit "message") (PStr []) ;;
  output <-
    (if eq_str decision (lit "allow") then ret allow_output
     else if eq_str decision (lit "deny")
     then ret (deny_output (message_or_default message))
     else sys_exit 0) ;;
  print (json_dumps output) ;;
  sys_exit 0.

(** Lines 102-110: the except clauses, in their order. *)
Definition handlers (e : exn) : option (M unit) :=
  match e with
  | SocketTimeout =>
    Some (print_stderr "Error: Timeout waiting for permission decision" None ;;
          sys_exit 0)
  | OSError _ =>
    Some (print_stderr "Error: Socket error: " (Some e) ;; sys_exit 0)
  | JSONDecodeError _ =>
    Some (print_stderr "Error: Invalid JSON response: " (Some e) ;;
          sys_exit 0)
  | _ => None
  end.

(** Lines 22-110. *)
Definition main : M unit :=
  socket_path <- resolve_endpoint ;;
  request <- parse_query ;;
  try_except
    (response_bytes <- exchange socket_path request ;;
     response <- parse_response response_bytes ;;
     emit response)
    handlers.

(** The run of the script in the world [w]. *)
Definition run : Z * state := terminate (main (initial w)).

Definition exit_status : Z := fst run.
Definition final : state := snd run.

(** ** Parts of a run *)

(** Lines 23-67 without the except clauses: the script up to [sock.close()],
    giving the bytes it has read when it gets that far. *)
Definition request_reply : M bytes :=
  socket_path <- resolve_endpoint ;;
  request <- parse_query ;;
  exchange socket_path request.

(** The same up to line 73: what the script binds to [response]. *)
Definition receive : M value :=
  response_bytes <- request_reply ;;
  parse_response response_bytes.

(** The run reads [response_bytes] from the socket and closes it. *)
Definition replied (response_bytes : bytes) : Prop :=
  fst (request_reply (initial w)) = Ok response_bytes.

(** The run receives [response]: line 73 binds it. *)
Definition received (response : value) : Prop :=
  fst (receive (initial w)) = Ok response.

(** The attempt of lines 23-67 ends with the exception [e]. *)
Definition failed (e : exn) : Prop :=
  fst (request_reply (initial w)) = Raise e.

End Script.

(** Lines 69-110 for given response bytes: what the rest of the try
    statement does with them. *)
Definition respond (response_bytes : bytes) : M unit :=
  try_except
    (response <- parse_response response_bytes ;;
     emit response)
    handlers.

(** The timeout of the socket, in milliseconds. *)
Definition limit : N := 60 * 1000.

(** A reply to [recv] after which the loop goes on: it comes in time, with
    bytes, none of them a newline. *)
Definition partial (r : reply bytes) : Prop :=
  exists t chunk,
    r = Completes t chunk /\ t < limit /\ chunk <> [] /\
    has_newline chunk = false.

(** The bytes of a reply. *)
Definition payload (r : reply bytes) : bytes :=
  match r with Completes _ chunk => chunk | Fails _ _ => [] end.

End Hook.

(* ===================================================================== *)
(** * Notions used in the statements *)
(* ===================================================================== *)

Module Notions.
Import Py Proc Hook.

(** A computation that writes on neither standard stream. *)
Definition quiet {A} (c : M A) : Prop :=
  forall s, stdout (snd (c s)) = stdout s /\ stderr (snd (c s)) = stderr s.

(** A computation that leaves the timeout of the socket alone. *)
Definition keeps_timeout {A} (c : M A) : Prop :=
  forall s, timeout (snd (c s)) = timeout s.

(** Every exception the computation raises satisfies [P]. *)
Definition throws {A} (c : M A) (P : exn -> Prop) : Prop :=
  forall s e s', c s = (Raise e, s') -> P e.

(** socket.timeout and the other instances of socket.error. *)
Definition socket_failure (e : exn) : Prop :=
  e = SocketTimeout \/ exists msg, e = OSError msg.

(** What escapes lines 23-45: an exit, or [.get] on something that is not a
    dict. *)
Definition query_failure (e : exn) : Prop :=
  e = SystemExit 0 \/ e = SystemExit 1 \/ e = AttributeError.

Definition ascii_only (s : str) : Prop := Forall (fun c => c < 128) s.

(** Characters from the space to the tilde, and text made of them. *)
Definition printable (c : N) : bool := (32 <=? c) && (c <=? 126).
Definition printable_only (s : str) : Prop :=
  Forall (fun c => printable c = true) s.

(** The exception is a JSONDecodeError. *)
Definition decode_error (e : exn) : Prop := exists msg, e = JSONDecodeError msg.

(** A scanner either fails with a JSONDecodeError or takes at least one
    character of [s]. *)
Definition consumes {A} (s : str) (r : result (A * str)) : Prop :=
  match r with
  | Ok (_, rest) => (List.length rest < List.length s)%nat
  | Raise e => decode_error e
  end.

(** [d.get(key, default)] *)
Definition get_or (d : dict) (key : string) (default : value) : value :=
  match dict_lookup d (lit key) with Some v => v | None => default end.

(** The request of lines 34-45 for the input [input_data]. *)
Definition request_of (input_data : dict) : value :=
  PDict [(lit "tool_name", get_or input_data "tool_name" (PStr []));
         (lit "tool_input", get_or input_data "tool_input" (PDict []));
         (lit "tool_use_id", get_or input_data "tool_use_id" (PStr []));
         (lit "session_id", get_or input_data "session_id" (PStr []))].

(** The states after line 23 and after line 29. *)
Definition after_getenv (w : world) : state :=
  log (CGetenv BANJO_PERMISSION_SOCKET) (initial w).
Definition after_stdin (w : world) : state := log CReadStdin (after_getenv w).

(** The diagnostics of the script. *)
Definition invalid_input (e : exn) : line :=
  Diagnostic "Error: Invalid JSON input: " (Some e).
Definition empty_response : line :=
  Diagnostic "Error: Empty response from Banjo" None.
Definition timed_out : line :=
  Diagnostic "Error: Timeout waiting for permission decision" None.
Definition socket_error (e : exn) : line :=
  Diagnostic "Error: Socket error: " (Some e).
Definition invalid_response (e : exn) : line :=
  Diagnostic "Error: Invalid JSON response: " (Some e).

(** What [print(json.dumps(document))] writes. *)
Definition printed (document : value) : str := json_dumps document ++ [10].



(** The world [w] with BANJO_PERMISSION_SOCKET unset. *)
Definition without_endpoint (w : world) : world :=
  {| environ := None; stdin := stdin w; on_socket := on_socket w;
     on_connect := on_connect w; on_sendall := on_sendall w;
     on_recv := on_recv w |}.

(** An answer the script is written for: nothing at all, or UTF-8 text that
    is, once stripped, a JSON object or no JSON document. *)
Definition handled_reply (b : bytes) : Prop :=
  b = [] \/
  exists t, decode_utf8 b = Some t /\
    ((exists d, json_loads (strip t) = Ok (PDict d)) \/
     (exists msg, json_loads (strip t) = Raise (JSONDecodeError msg))).

(** The recoverable failures of a run, each with what it leaves on the
    error channel: a missing (or empty) endpoint and an unrecognised
    decision leave nothing; a timeout, any other socket error, an empty
    response, and a response that is UTF-8 text which json.loads rejects
    with a JSONDecodeError leave one diagnostic. *)
Inductive recoverable (w : world) : list line -> Prop :=
| missing_endpoint :
    environ w = None \/ environ w = Some [] ->
    recoverable w []
| timeout_expired :
    failed w SocketTimeout ->
    recoverable w [timed_out]
| connection_failure msg :
    failed w (OSError msg) ->
    recoverable w [socket_error (OSError msg)]
| no_response :
    replied w [] ->
    recoverable w [empty_response]
| malformed_response b t msg :
    replied w b -> b <> [] -> decode_utf8 b = Some t ->
    json_loads (strip t) = Raise (JSONDecodeError msg) ->
    recoverable w [invalid_response (JSONDecodeError msg)]
| unrecognised_decision response :
    received w (PDict response) ->
    dict_lookup response (lit "decision") <> Some (PStr (lit "allow")) ->
    dict_lookup response (lit "decision") <> Some (PStr (lit "deny")) ->
    recoverable w [].

(** A blocking call that the run gets to does not complete within the
    timeout of the socket: [connect], [sendall], or a [recv] that follows
    replies which all came in time and kept the loop going. *)
Inductive overrun (w : world) : Prop :=
| connect_overrun :
    limit <= delay (on_connect w) ->
    overrun w
| sendall_overrun t :
    on_connect w = Completes t tt -> t < limit ->
    limit <= delay (on_sendall w) ->
    overrun w
| recv_overrun t t' pre r post :
    on_connect w = Completes t tt -> t < limit ->
    on_sendall w = Completes t' tt -> t' < limit ->
    on_recv w = pre ++ r :: post -> Forall partial pre ->
    limit <= delay r ->
    overrun w.

(** What the loop of lines 59-65 reads from an inbox: the chunks up to and
    including the first one with a newline, or up to the close of the
    peer. *)
Inductive read_until_newline : list (reply bytes) -> bytes -> Prop :=
| read_used_up : read_until_newline [] []
| read_closed t post :
    t < limit ->
    read_until_newline (Completes t [] :: post) []
| read_newline t chunk post :
    t < limit -> has_newline chunk = true ->
    read_until_newline (Completes t chunk :: post) chunk
| read_more r rest tail :
    partial r -> read_until_newline rest tail ->
    read_until_newline (r :: rest) (payload r ++ tail).

(** The state in which [connect] blocks. *)
Definition connecting (p : str) (s : state) : state :=
  log (CConnect p)
      (set_timeout (Some limit)
                   (log (CSetTimeout 60) (set_sock Created (log CSocket s)))).

(** The state in which [sendall] blocks, [s] being the state in which
    [connect] has returned. *)
Definition sending (data : bytes) (s : state) : state :=
  log (CSendall data) (set_sock Connected s).

(** What the caller sees of a run: exit status, standard output, error
    channel. *)
Definition outcome (r : result unit * state) : Z * str * list line :=
  let (code, s) := terminate r in (code, stdout s, stderr s).

(** ** Notions for the whole run *)

(** An exception that ends the run with a traceback: it is not SystemExit,
    and none of the except clauses of lines 102-110 is for it. *)
Definition uncaught (e : exn) : Prop :=
  handlers e = None /\ forall code, e <> SystemExit code.

(** The ways a run can end, as the caller sees them: exit status, standard
    output, error channel. *)
Inductive ending : Z -> str -> list line -> Prop :=
| ends_silent : ending 0 [] []
| ends_allow : ending 0 (printed allow_output) []
| ends_deny message :
    ending 0 (printed (deny_output (message_or_default message))) []
| ends_timed_out : ending 0 [] [timed_out]
| ends_socket_error msg : ending 0 [] [socket_error (OSError msg)]
| ends_empty_response : ending 0 [] [empty_response]
| ends_invalid_response msg :
    ending 0 [] [invalid_response (JSONDecodeError msg)]
| ends_invalid_input msg :
    ending 1 [] [invalid_input (JSONDecodeError msg)]
| ends_uncaught e :
    uncaught e -> ending 1 [] [Traceback e].

(** BANJO_PERMISSION_SOCKET is set, and not to the empty string. *)
Definition configured (w : world) : Prop :=
  exists c p, environ w = Some (c :: p).

(** Standard input holds a JSON object. *)
Definition object_input (w : world) : Prop :=
  exists q, json_loads (stdin w) = Ok (PDict q).

(** A JSON value that is not an object: it has no [get]. *)
Definition not_object (v : value) : Prop :=
  match v with PDict _ => False | _ => True end.

(** The calls of a run that gets to [sock.close()], with [reads] calls of
    [recv]. *)
Definition session (path : str) (data : bytes) (reads : nat) : list call :=
  [CGetenv BANJO_PERMISSION_SOCKET; CReadStdin; CSocket; CSetTimeout 60;
   CConnect path; CSendall data]
  ++ repeat (CRecv 4096) reads ++ [CClose].

(** The four keys the script reads of its input. *)
Definition forwarded : list string :=
  ["tool_name"; "tool_input"; "tool_use_id"; "session_id"]%string.

(** The world [w] with [text] on standard input. *)
Definition with_stdin (w : world) (text : str) : world :=
  {| environ := environ w; stdin := text; on_socket := on_socket w;
     on_connect := on_connect w; on_sendall := on_sendall w;
     on_recv := on_recv w |}.

End Notions.

(* ===================================================================== *)
(** * Sample worlds *)
(* ===================================================================== *)

Module Worlds.
Import Py Proc Hook Notions.

Definition query : str :=
  quoted "{'tool_name': 'Bash', 'tool_input': {'command': 'ls'}, 'tool_use_id': 'toolu_01', 'session_id': 'abc'}".

(** An authority that accepts the connection and the request at once and
    answers as [replies] say. *)
Definition answering (replies : list (reply bytes)) : world :=
  {| environ := Some (lit "/tmp/banjo.sock"); stdin := query;
     on_socket := None; on_connect := Completes 1 tt;
     on_sendall := Completes 1 tt; on_recv := replies |}.

Definition line (text : string) : bytes := bquoted text ++ [x0a].

Definition w_allow : world :=
  answering [Completes 5000 (line "{'decision': 'allow'}")].
Definition w_deny : world :=
  answering [Completes 5000 (line "{'decision': 'deny', 'message': 'no'}")].
Definition w_ask : world :=
  answering [Completes 5000 (line "{'decision': 'ask'}")].
Definition w_garbled : world :=
  answering [Completes 5000 (line "{'decision': ")].
Definition w_hangup : world := answering [].

(** The answer is a JSON document, but not an object. *)
Definition w_list : world := answering [Completes 5000 (line "[]")].


(** The answer takes longer than 60 seconds. *)
Definition w_silent : world :=
  answering [Completes 61000 (line "{'decision': 'allow'}")].

(** The answer comes in two parts, each after 45 seconds. *)
Definition w_slow : world :=
  answering [Completes 45000 (bquoted "{'decision': ");
             Completes 45000 (line "'allow'}")].

Definition w_unset : world := without_endpoint w_allow.

Definition w_empty_endpoint : world :=
  {| environ := Some []; stdin := query; on_socket := None;
     on_connect := Completes 1 tt; on_sendall := Completes 1 tt;
     on_recv := [] |}.

Definition w_bad_input : world :=
  {| environ := Some (lit "/tmp/banjo.sock"); stdin := lit "tool_name=Bash";
     on_socket := None; on_connect := Completes 1 tt;
     on_sendall := Completes 1 tt; on_recv := [] |}.

Definition w_refused : world :=
  {| environ := Some (lit "/tmp/banjo.sock"); stdin := query;
     on_socket := None;
     on_connect := Fails 0 "[Errno 111] Connection refused";
     on_sendall := Completes 1 tt; on_recv := [] |}.

(** The input is a JSON document, but not an object. *)
Definition w_list_input : world :=
  {| environ := Some (lit "/tmp/banjo.sock"); stdin := lit "[1, 2]";
     on_socket := None; on_connect := Completes 1 tt;
     on_sendall := Completes 1 tt;
     on_recv := [Completes 5000 (line "{'decision': 'allow'}")] |}.

(** The answer is not UTF-8. *)
Definition w_latin1 : world := answering [Completes 5000 [xe9; x0a]].



(** The input of [query] with more keys, in another order. *)
Definition query_with_more : str :=
  quoted "{'cwd': '/', 'session_id': 'abc', 'tool_use_id': 'toolu_01', 'tool_input': {'command': 'ls'}, 'hook_event_name': 'PermissionRequest', 'tool_name': 'Bash'}".

End Worlds.


(* ===================================================================== *)
(** * Facts about the runtime *)
(* ===================================================================== *)

Section PyFacts.
Import Py Notions.

(** ** The decoder never runs out of fuel *)

Lemma skip_ws_length (s : str) :
  (List.length (skip_ws s) <= List.length s)%nat.
Proof.
  induction s as [|c s IH]; cbn [skip_ws]; [lia|].
  destruct (is_ws c); cbn [List.length] in *; lia.
Qed.

Lemma strip_prefix_length (p s r : str) :
  strip_prefix p s = Some r ->
  (List.length r + List.length p = List.length s)%nat.
Proof.
  revert s. induction p as [|x p IH]; intros [|y s]; cbn; try discriminate.
  - intros [= <-]. reflexivity.
  - intros [= <-]. cbn. lia.
  - destruct (x =? y); [|discriminate]. intros H. apply IH in H. lia.
Qed.

Lemma digits_length (s : str) :
  (List.length (snd (digits s)) <= List.length s)%nat.
Proof.
  induction s as [|c s IH]; cbn [digits]; [cbn; lia|].
  destruct (is_digit c); [|cbn; lia].
  destruct (digits s) as [ds r]. cbn [snd List.length] in *. lia.
Qed.

Lemma match_integer_length (s r : str) (neg : bool) (ds : list N) :
  match_integer s = Some (neg, ds, r) ->
  (List.length r < List.length s)%nat.
Proof.
  unfold match_integer.
  destruct s as [|c s']; [discriminate|].
  destruct (c =? ch "-").
  - intros E. destruct s' as [|c' r0]; [discriminate|].
    destruct (c' =? ch "0"); [injection E as _ _ <-; cbn; lia|].
    destruct (is_digit c'); [|discriminate].
    pose proof (digits_length r0) as Hd. destruct (digits r0) as [ds0 r'].
    cbn [snd] in Hd. injection E as _ _ <-. cbn. lia.
  - intros E. destruct (c =? ch "0"); [injection E as _ _ <-; cbn; lia|].
    destruct (is_digit c); [|discriminate].
    pose proof (digits_length s') as Hd. destruct (digits s') as [ds0 r'].
    cbn [snd] in Hd. injection E as _ _ <-. cbn. lia.
Qed.

Lemma match_frac_length (s : str) :
  (List.length (snd (match_frac s)) <= List.length s)%nat.
Proof.
  unfold match_frac. destruct s as [|c r]; [cbn; lia|].
  destruct (c =? ch "."); [|cbn; lia].
  pose proof (digits_length r) as Hd. destruct (digits r) as [[|d fs] r'];
    cbn [snd List.length] in *; lia.
Qed.

Lemma match_exp_length (s : str) :
  (List.length (snd (match_exp s)) <= List.length s)%nat.
Proof.
  unfold match_exp. destruct s as [|c r]; [cbn; lia|].
  destruct ((c =? ch "e") || (c =? ch "E")); [|cbn; lia].
  destruct r as [|c' r'];
    [|destruct (c' =? ch "-"); [|destruct (c' =? ch "+")]];
    cbv beta iota zeta;
    match goal with
    | |- context [digits ?x] =>
      pose proof (digits_length x) as Hd;
      destruct (digits x) as [[|d es] r2]
    end;
    cbn [snd List.length] in *; lia.
Qed.

Lemma match_number_length (s r : str) (v : value) :
  match_number s = Some (v, r) -> (List.length r < List.length s)%nat.
Proof.
  unfold match_number.
  destruct (match_integer s) as [[[neg ds] r0]|] eqn:E; [|discriminate].
  apply match_integer_length in E.
  pose proof (match_frac_length r0) as Hf.
  destruct (match_frac r0) as [frac r1]. cbn [snd] in Hf.
  pose proof (match_exp_length r1) as He.
  destruct (match_exp r1) as [exp r2]. cbn [snd] in He.
  destruct frac, exp; intros [= _ <-]; lia.
Qed.

Lemma consumes_weaken {A} (s s' : str) (r : result (A * str)) :
  consumes s' r -> (List.length s' <= List.length s)%nat -> consumes s r.
Proof. destruct r as [[a rest] | e]; cbn; [lia | auto]. Qed.

Lemma push_consumes {A} (c : N) (s s' : str) (r : result (str * A)) :
  match r with
  | Ok _ => True
  | Raise e => decode_error e
  end ->
  match push c r with
  | Ok _ => True
  | Raise e => decode_error e
  end.
Proof. destruct r as [[t x] | e]; cbn; auto. Qed.

Lemma push_rest (c : N) (r : result (str * str)) (s : str) :
  consumes s (push c r) <-> consumes s r.
Proof. destruct r as [[t x] | e]; cbn; tauto. Qed.

Lemma scanstring_consumes (s : str) : consumes s (scanstring s).
Proof.
  assert (H : forall (n : nat) (s : str),
             (List.length s <= n)%nat -> consumes s (scanstring s)).
  { clear s. induction n as [|n IH]; intros s Hn.
    - destruct s; [|cbn in Hn; lia]. hnf. eexists; reflexivity.
    - destruct s as [|c r]; [hnf; eexists; reflexivity|].
      cbn [scanstring].
      repeat match goal with
             | |- consumes _ (Raise _) => solve [hnf; eexists; reflexivity]
             | |- consumes _ (Ok (_, _)) => solve [cbn; lia]
             | |- consumes _ (push _ (scanstring ?r')) =>
               apply push_rest;
               apply (consumes_weaken _ r');
               [apply IH; cbn [List.length] in *; lia
               | cbn [List.length]; lia]
             | |- consumes _ (if ?b then _ else _) => destruct b
             | |- consumes _ (match ?x with _ => _ end) => destruct x
             end. }
  apply (H (List.length s)). lia.
Qed.

Lemma scan_once_fuel (fuel : nat) :
  (forall s, (3 * List.length s + 1 <= fuel)%nat ->
             consumes s (scan_once fuel s)) /\
  (forall s, (3 * List.length s + 3 <= fuel)%nat ->
             consumes s (JSONObject fuel s)) /\
  (forall pairs s, (3 * List.length s + 2 <= fuel)%nat ->
                   consumes s (object_items fuel pairs s)) /\
  (forall s, (3 * List.length s + 3 <= fuel)%nat ->
             consumes s (JSONArray fuel s)) /\
  (forall values s, (3 * List.length s + 2 <= fuel)%nat ->
                    consumes s (array_items fuel values s)).
Proof.
  induction fuel as [|fuel (IHs & IHo & IHoi & IHa & IHai)];
    [repeat split; intros; lia|].
  repeat apply conj.
  - (* scan_once *)
    intros s Hf. cbn [scan_once].
    destruct s as [|c r]; [hnf; eexists; reflexivity|].
    cbn [List.length] in Hf.
    destruct (c =? QUOTE).
    { pose proof (scanstring_consumes r) as H.
      destruct (scanstring r) as [[t r'] | e]; cbn in *; [lia | exact H]. }
    destruct (c =? ch "{").
    { apply (consumes_weaken _ r); [apply IHo; lia | cbn; lia]. }
    destruct (c =? ch "[").
    { apply (consumes_weaken _ r); [apply IHa; lia | cbn; lia]. }
    repeat match goal with
           | |- consumes _ (match strip_prefix ?p ?x with _ => _ end) =>
             let E := fresh "E" in
             destruct (strip_prefix p x) as [?r'|] eqn:E;
             [apply strip_prefix_length in E; cbn in E |- *; lia|]
           | |- consumes _ (match match_number ?x with _ => _ end) =>
             let E := fresh "E" in
             destruct (match_number x) as [[?v ?r']|] eqn:E;
             [apply match_number_length in E; cbn in E |- *; lia|]
           end.
    hnf. eexists; reflexivity.
  - (* JSONObject *)
    intros s Hf. cbn [JSONObject].
    pose proof (skip_ws_length s) as Hw.
    destruct (skip_ws s) as [|c r]; [hnf; eexists; reflexivity|].
    cbn [List.length] in Hw.
    destruct (c =? ch "}"); [cbn; lia|].
    destruct (c =? QUOTE); [|hnf; eexists; reflexivity].
    apply (consumes_weaken _ r); [apply IHoi; lia | lia].
  - (* object_items *)
    intros pairs s Hf. cbn [object_items].
    pose proof (scanstring_consumes s) as Hk.
    destruct (scanstring s) as [[key s1] | e]; [|exact Hk]. cbn in Hk.
    pose proof (skip_ws_length s1) as H1.
    destruct (skip_ws s1) as [|c s2]; [hnf; eexists; reflexivity|].
    cbn [List.length] in H1.
    destruct (c =? ch ":"); [|hnf; eexists; reflexivity].
    pose proof (skip_ws_length s2) as H2.
    pose proof (IHs (skip_ws s2) ltac:(lia)) as Hv.
    destruct (scan_once fuel (skip_ws s2)) as [[v s3] | e]; [|exact Hv].
    cbn in Hv. cbv zeta.
    pose proof (skip_ws_length s3) as H3.
    destruct (skip_ws s3) as [|nextchar s4]; [hnf; eexists; reflexivity|].
    cbn [List.length] in H3.
    destruct (nextchar =? ch "}"); [cbn; lia|].
    destruct (nextchar =? ch ","); [|hnf; eexists; reflexivity].
    pose proof (skip_ws_length s4) as H4.
    destruct (skip_ws s4) as [|q s5]; [hnf; eexists; reflexivity|].
    cbn [List.length] in H4.
    destruct (q =? QUOTE); [|hnf; eexists; reflexivity].
    apply (consumes_weaken _ s5); [apply IHoi; lia | lia].
  - (* JSONArray *)
    intros s Hf. cbn [JSONArray].
    pose proof (skip_ws_length s) as Hw.
    destruct (skip_ws s) as [|c r].
    + apply (consumes_weaken _ []); [apply IHai; cbn; lia | cbn; lia].
    + cbn [List.length] in Hw.
      destruct (c =? ch "]"); [cbn; lia|].
      apply (consumes_weaken _ (c :: r));
        [apply IHai; cbn [List.length]; lia | cbn [List.length]; lia].
  - (* array_items *)
    intros values s Hf. cbn [array_items].
    pose proof (IHs s ltac:(lia)) as Hv.
    destruct (scan_once fuel s) as [[v s1] | e]; [|exact Hv].
    cbn in Hv. cbv zeta.
    pose proof (skip_ws_length s1) as H1.
    destruct (skip_ws s1) as [|nextchar s2]; [hnf; eexists; reflexivity|].
    cbn [List.length] in H1.
    destruct (nextchar =? ch "]"); [cbn; lia|].
    destruct (nextchar =? ch ","); [|hnf; eexists; reflexivity].
    pose proof (skip_ws_length s2) as H2.
    apply (consumes_weaken _ (skip_ws s2)); [apply IHai; lia | lia].
Qed.

(** [json.loads] either returns a value or raises JSONDecodeError: the
    bound on the depth of the calls is never reached. *)
Lemma json_loads_throws (s : str) (e : exn) :
  json_loads s = Raise e -> decode_error e.
Proof.
  unfold json_loads.
  assert (H : match scan_once (3 * List.length s + 3) (skip_ws s) with
              | Raise e0 => Raise e0
              | Ok (obj, r) =>
                match skip_ws r with
                | [] => Ok obj
                | _ :: _ => Raise (JSONDecodeError "Extra data")
                end
              end = Raise e -> decode_error e).
  { pose proof (skip_ws_length s) as Hw.
    pose proof (proj1 (scan_once_fuel (3 * List.length s + 3)) (skip_ws s)
                      ltac:(lia)) as Hc.
    destruct (scan_once _ (skip_ws s)) as [[obj r] | e0].
    - destruct (skip_ws r); [discriminate|]. intros [= <-].
      eexists; reflexivity.
    - intros [= <-]. exact Hc. }
  destruct s as [|c s']; [exact H|].
  destruct c as [|p]; [exact H|].
  repeat (destruct p as [p | p |]; try exact H).
  intros [= <-]. eexists; reflexivity.
Qed.

(** *** json.dumps writes printable ASCII *)

Lemma printable_app (a b : str) :
  printable_only a -> printable_only b -> printable_only (a ++ b).
Proof. intros Ha Hb. apply Forall_app. split; assumption. Qed.

Lemma printable_rev (a : str) : printable_only a -> printable_only (rev a).
Proof. apply Forall_rev. Qed.

Lemma printable_firstn (n : nat) (a : str) :
  printable_only a -> printable_only (firstn n a).
Proof.
  intros H. revert n.
  induction H as [|c r Hc Hr IH]; intros [|n]; cbn [firstn].
  - constructor.
  - constructor.
  - constructor.
  - constructor; [exact Hc | apply IH].
Qed.

Lemma printable_skipn (n : nat) (a : str) :
  printable_only a -> printable_only (skipn n a).
Proof.
  intros H. revert n.
  induction H as [|c r Hc Hr IH]; intros [|n]; cbn [skipn].
  - constructor.
  - constructor.
  - constructor; assumption.
  - apply IH.
Qed.

Lemma printable_drop_zeros (a : str) : printable_only a -> printable_only (drop_zeros a).
Proof.
  induction 1 as [|c r Hc Hr IH]; cbn; [constructor|].
  destruct (c =? 48); [exact IH | constructor; assumption].
Qed.

Lemma printable_zeros (n : Z) : printable_only (zeros n).
Proof.
  unfold zeros. induction (Z.to_nat n); cbn; constructor;
    [reflexivity | assumption].
Qed.

Lemma printable_uint (d : Decimal.uint) :
  printable_only (lit (NilEmpty.string_of_uint d)).
Proof.
  induction d; cbn; constructor; solve [reflexivity | assumption].
Qed.

Lemma printable_int (i : Decimal.int) :
  printable_only (lit (NilZero.string_of_int i)).
Proof.
  assert (H : forall d, printable_only (lit (NilZero.string_of_uint d))).
  { intros d. pose proof (printable_uint d) as H.
    destruct d; try exact H. cbn. constructor; [reflexivity | constructor]. }
  destruct i as [d | d]; cbn [NilZero.string_of_int]; [apply H|].
  change (printable_only (45 :: lit (NilZero.string_of_uint d))).
  constructor; [reflexivity | apply H].
Qed.

Lemma printable_decimal (n : Z) : printable_only (decimal n).
Proof. apply printable_int. Qed.

Lemma printable_int_repr (z : Z) : printable_only (int_repr z).
Proof. apply printable_int. Qed.

Ltac printable_step :=
  first
    [ assumption
    | apply Forall_nil
    | apply printable_decimal
    | apply printable_zeros
    | apply printable_firstn
    | apply printable_skipn
    | apply printable_app
    | apply Forall_cons; [try reflexivity|]
    | match goal with
      | |- printable_only (if ?b then _ else _) => destruct b
      | |- printable (if ?b then _ else _) = true => destruct b; reflexivity
      end ].

Lemma printable_float_repr (f : pyfloat) : printable_only (float_repr f).
Proof.
  destruct f as [neg m e | | neg]; cbn [float_repr].
  - apply printable_app; [destruct neg; repeat constructor|].
    destruct (m =? 0); [repeat constructor|].
    destruct (shortest_digits (Z.of_N m) e 1 17) as [d t].
    cbv zeta.
    assert (Hd : printable_only (rev (drop_zeros (rev (decimal d))))).
    { apply printable_rev, printable_drop_zeros, printable_rev, printable_decimal. }
    set (ds := rev (drop_zeros (rev (decimal d)))) in *.
    repeat printable_step.
  - repeat constructor.
  - destruct neg; repeat constructor.
Qed.

Lemma printable_float_dumps (f : pyfloat) : printable_only (float_dumps f).
Proof.
  destruct f as [neg m e | | neg]; [apply printable_float_repr | |].
  - repeat constructor.
  - destruct neg; repeat constructor.
Qed.

Lemma hexdigit_printable (n : N) : n < 16 -> printable (hexdigit n) = true.
Proof.
  intros H. unfold hexdigit, printable.
  apply andb_true_intro. rewrite !N.leb_le.
  destruct (n <? 10); lia.
Qed.

Lemma printable_u_escape (n : N) : printable_only (u_escape n).
Proof.
  unfold u_escape, hex4.
  repeat (constructor; [first [reflexivity
                              | apply hexdigit_printable, N.mod_lt; discriminate]|]).
  constructor.
Qed.

Lemma printable_escape (c : N) : printable_only (escape_ascii c).
Proof.
  unfold escape_ascii.
  repeat match goal with
         | |- printable_only (if _ =? _ then _ else _) =>
           destruct (_ =? _); [repeat constructor|]
         end.
  destruct ((32 <=? c) && (c <=? 126)) eqn:E.
  - constructor; [exact E | constructor].
  - destruct (c <? 65536); [apply printable_u_escape|].
    cbv zeta. apply printable_app; apply printable_u_escape.
Qed.

Lemma printable_basestring (s : str) : printable_only (encode_basestring_ascii s).
Proof.
  unfold encode_basestring_ascii.
  constructor; [reflexivity|].
  apply printable_app; [|repeat constructor].
  induction s as [|c r IH]; cbn [flat_map]; [constructor|].
  apply printable_app; [apply printable_escape | exact IH].
Qed.

Lemma printable_join_comma (items : list str) :
  Forall printable_only items -> printable_only (join_comma items).
Proof.
  induction 1 as [|x rest Hx Hr IH]; [constructor|].
  cbn [join_comma]. destruct rest as [|y rest]; [exact Hx|].
  apply printable_app; [exact Hx|].
  apply printable_app; [repeat constructor | exact IH].
Qed.

(** Induction on a value, with the property known of the items of a list
    and of the values of a dict. *)
Lemma value_nested_ind (P : value -> Prop)
      (HNone : P PNone) (HBool : forall b, P (PBool b))
      (HInt : forall z, P (PInt z)) (HFloat : forall f, P (PFloat f))
      (HStr : forall s, P (PStr s))
      (HList : forall l, Forall P l -> P (PList l))
      (HDict : forall d, Forall (fun kv => P (snd kv)) d -> P (PDict d)) :
  forall v, P v.
Proof.
  fix IH 1.
  intros [| b | z | f | s | l | d];
    [exact HNone | apply HBool | apply HInt | apply HFloat | apply HStr
    | | ].
  - apply HList. induction l as [|x r IHr]; constructor;
      [apply IH | exact IHr].
  - apply HDict. induction d as [|[k x] r IHr]; constructor;
      [apply IH | exact IHr].
Qed.

Lemma printable_json_dumps (v : value) : printable_only (json_dumps v).
Proof.
  induction v as [| b | z | f | s | l IH | d IH] using value_nested_ind;
    cbn [json_dumps].
  - repeat constructor.
  - destruct b; repeat constructor.
  - apply printable_int_repr.
  - apply printable_float_dumps.
  - apply printable_basestring.
  - constructor; [reflexivity|].
    apply printable_app; [|repeat constructor].
    apply printable_join_comma.
    induction IH; cbn [map]; constructor; assumption.
  - constructor; [reflexivity|].
    apply printable_app; [|repeat constructor].
    apply printable_join_comma.
    induction IH as [|[k x] r Hx Hr IHr]; cbn [map]; constructor;
      [|exact IHr].
    cbn [fst snd] in *.
    apply printable_app; [apply printable_basestring|].
    apply printable_app; [repeat constructor | exact Hx].
Qed.

Lemma ascii_json_dumps (v : value) : ascii_only (json_dumps v).
Proof.
  eapply Forall_impl; [|apply printable_json_dumps].
  intros c H. apply andb_prop in H. destruct H as [_ H].
  apply N.leb_le in H. lia.
Qed.

Lemma encode_utf8_ascii (s : str) :
  ascii_only s -> encode_utf8 s = Some (map byte_of s).
Proof.
  intros H.
  induction H as [|c r Hc Hr IH]; [reflexivity|].
  cbn [encode_utf8 map]. apply N.ltb_lt in Hc. rewrite Hc, IH. reflexivity.
Qed.

(** The text json.dumps returns always has a UTF-8 encoding. *)
Lemma encode_json_dumps (v : value) :
  exists b, encode_utf8 (json_dumps v) = Some b.
Proof.
  eexists. apply encode_utf8_ascii, ascii_json_dumps.
Qed.

End PyFacts.

(* ===================================================================== *)
(** * Facts about the script and its monad *)
(* ===================================================================== *)

Import Py Proc Hook Notions.
Local Open Scope py_scope.

Section Monad.
Context {A B : Type}.

Lemma bind_ok (c : M A) (k : A -> M B) s a s' :
  c s = (Ok a, s') -> bind c k s = k a s'.
Proof. intros H. unfold bind. now rewrite H. Qed.

Lemma bind_raise (c : M A) (k : A -> M B) s e s' :
  c s = (Raise e, s') -> bind c k s = (Raise e, s').
Proof. intros H. unfold bind. now rewrite H. Qed.

Lemma try_except_bind (c : M A) (k : A -> M B) h s :
  try_except (bind c k) h s =
  match c s with
  | (Ok a, s') => try_except (k a) h s'
  | (Raise e, s') =>
    match h e with Some handler => handler s' | None => (Raise e, s') end
  end.
Proof.
  unfold try_except, bind. destruct (c s) as [[a | e] s']; reflexivity.
Qed.

Lemma quiet_bind (c : M A) (k : A -> M B) :
  quiet c -> (forall a, quiet (k a)) -> quiet (bind c k).
Proof.
  intros Hc Hk s. unfold bind. specialize (Hc s).
  destruct (c s) as [[a | e] s']; cbn in *; [|exact Hc].
  destruct (Hk a s') as [H1 H2]. destruct Hc as [H3 H4].
  split; congruence.
Qed.

Lemma keeps_timeout_bind (c : M A) (k : A -> M B) :
  keeps_timeout c -> (forall a, keeps_timeout (k a)) ->
  keeps_timeout (bind c k).
Proof.
  intros Hc Hk s. unfold bind. specialize (Hc s).
  destruct (c s) as [[a | e] s']; cbn in *; [|exact Hc].
  rewrite Hk. exact Hc.
Qed.

Lemma throws_bind (c : M A) (k : A -> M B) (P : exn -> Prop) :
  throws c P -> (forall a, throws (k a) P) -> throws (bind c k) P.
Proof.
  intros Hc Hk s e s'. unfold bind.
  destruct (c s) as [[a | e0] s0] eqn:E.
  - apply Hk.
  - intros H. inversion H; subst. eapply Hc; eassumption.
Qed.

End Monad.

Lemma quiet_ret {A} (a : A) : quiet (ret a).
Proof. intros s. now split. Qed.

Lemma quiet_raise {A} (e : exn) : quiet (@raise A e).
Proof. intros s. now split. Qed.

Lemma quiet_lift {A} (r : result A) : quiet (lift r).
Proof. intros s. now split. Qed.

Lemma quiet_effect (f : state -> state) :
  (forall s, stdout (f s) = stdout s /\ stderr (f s) = stderr s) ->
  quiet (effect f).
Proof. intros H s. apply H. Qed.

Lemma quiet_blocking {A} (r : reply A) : quiet (blocking r).
Proof.
  intros s. unfold blocking.
  destruct (timeout s) as [l|]; [destruct (l <=? delay r)|];
    destruct r; now split.
Qed.

Lemma quiet_recv (n : N) : quiet (recv n).
Proof.
  apply quiet_bind; [now apply quiet_effect|]. intros _ s.
  destruct (inbox s) as [|r rest] eqn:E; cbn; rewrite ?E; [now split|].
  apply (quiet_blocking r (set_inbox rest s)).
Qed.

Lemma quiet_recv_loop (fuel : nat) (buf : bytes) : quiet (recv_loop fuel buf).
Proof.
  revert buf. induction fuel as [|fuel IH]; intros buf; cbn [recv_loop].
  - apply quiet_ret.
  - apply quiet_bind; [apply quiet_recv|]. intros chunk.
    destruct (is_empty chunk); [apply quiet_ret|].
    destruct (has_newline (buf ++ chunk)); [apply quiet_ret|apply IH].
Qed.

Lemma quiet_encode (t : str) : quiet (encode t).
Proof. unfold encode. destruct (encode_utf8 t); [apply quiet_ret|apply quiet_raise]. Qed.

Lemma quiet_exchange (w : world) (p : str) (rq : value) :
  quiet (exchange w p rq).
Proof.
  unfold exchange, socket_socket, settimeout, connect, sendall, close.
  apply quiet_bind; [|intros _].
  { apply quiet_bind; [now apply quiet_effect|intros _].
    destruct (on_socket w); [apply quiet_raise|now apply quiet_effect]. }
  apply quiet_bind; [|intros _].
  { apply quiet_bind; [|intros _]; now apply quiet_effect. }
  apply quiet_bind; [|intros _].
  { apply quiet_bind; [now apply quiet_effect|intros _].
    apply quiet_bind; [apply quiet_blocking|intros _].
    now apply quiet_effect. }
  apply quiet_bind; [apply quiet_encode|intros bs].
  apply quiet_bind; [|intros _].
  { apply quiet_bind; [now apply quiet_effect|intros _].
    apply quiet_blocking. }
  apply quiet_bind; [intros s; apply quiet_recv_loop|intros b].
  apply quiet_bind; [|intros _; apply quiet_ret].
  apply quiet_bind; [|intros _]; now apply quiet_effect.
Qed.

(** ** The socket calls *)

Lemma blocking_eq {A} (r : reply A) (s : state) (l : N) :
  timeout s = Some l ->
  blocking r s =
  if l <=? delay r then (Raise SocketTimeout, tick l s)
  else match r with
       | Completes t a => (Ok a, tick t s)
       | Fails t msg => (Raise (OSError msg), tick t s)
       end.
Proof. intros H. unfold blocking. now rewrite H. Qed.

Lemma recv_eq (n : N) (s : state) :
  recv n s =
  match inbox s with
  | [] => (Ok [], log (CRecv n) s)
  | r :: rest => blocking r (set_inbox rest (log (CRecv n) s))
  end.
Proof. reflexivity. Qed.

Lemma blocking_inbox {A} (r : reply A) (s : state) :
  inbox (snd (blocking r s)) = inbox s.
Proof.
  unfold blocking.
  destruct (timeout s) as [l|]; [destruct (l <=? delay r)|];
    destruct r; reflexivity.
Qed.

Lemma blocking_timeout {A} (r : reply A) : keeps_timeout (blocking r).
Proof.
  intros s. unfold blocking.
  destruct (timeout s) as [l|] eqn:E; [destruct (l <=? delay r)|];
    destruct r; cbn; now rewrite E.
Qed.

Lemma blocking_throws {A} (r : reply A) : throws (blocking r) socket_failure.
Proof.
  intros s e s'. unfold blocking.
  destruct (timeout s) as [l|]; [destruct (l <=? delay r)|];
    destruct r; intros H; inversion H; subst;
    first [now left | right; eexists; reflexivity].
Qed.

Lemma recv_shrinks (n : N) (s : state) :
  inbox s <> [] ->
  S (List.length (inbox (snd (recv n s)))) = List.length (inbox s).
Proof.
  intros H. rewrite recv_eq. destruct (inbox s) as [|r rest]; [easy|].
  now rewrite blocking_inbox.
Qed.

Lemma recv_closed (n : N) (s : state) :
  inbox s = [] -> recv n s = (Ok [], log (CRecv n) s).
Proof. intros H. rewrite recv_eq. now rewrite H. Qed.

Lemma recv_timeout (n : N) : keeps_timeout (recv n).
Proof.
  intros s. rewrite recv_eq. destruct (inbox s); [reflexivity|].
  now rewrite blocking_timeout.
Qed.

Lemma recv_throws (n : N) : throws (recv n) socket_failure.
Proof.
  intros s e s'. rewrite recv_eq. destruct (inbox s); [discriminate|].
  apply blocking_throws.
Qed.

(** ** The read loop *)

(** One turn of the loop. *)
Lemma recv_loop_S (fuel : nat) (buf : bytes) (s : state) :
  recv_loop (S fuel) buf s =
  match recv 4096 s with
  | (Ok chunk, s') =>
    if is_empty chunk then (Ok buf, s')
    else if has_newline (buf ++ chunk) then (Ok (buf ++ chunk), s')
    else recv_loop fuel (buf ++ chunk) s'
  | (Raise e, s') => (Raise e, s')
  end.
Proof.
  cbn [recv_loop]. unfold bind.
  destruct (recv 4096 s) as [[chunk | e] s']; [|reflexivity].
  destruct (is_empty chunk); [reflexivity|].
  destruct (has_newline (buf ++ chunk)); reflexivity.
Qed.

(** Fuel above the length of the inbox is never used up: the loop gives the
    same with any two such amounts. *)
Lemma recv_loop_fuel (n m : nat) (buf : bytes) (s : state) :
  (List.length (inbox s) < n)%nat -> (List.length (inbox s) < m)%nat ->
  recv_loop n buf s = recv_loop m buf s.
Proof.
  revert m buf s. induction n as [|n IH]; intros m buf s Hn Hm; [lia|].
  destruct m as [|m]; [lia|]. rewrite !recv_loop_S.
  destruct (inbox s) as [|r rest] eqn:E.
  - rewrite recv_closed by assumption. reflexivity.
  - pose proof (recv_shrinks 4096 s) as Hs. rewrite E in Hs.
    specialize (Hs ltac:(discriminate)). cbn [List.length] in *.
    destruct (recv 4096 s) as [[chunk | e] s1]; [|reflexivity].
    cbn [snd] in Hs.
    destruct (is_empty chunk); [reflexivity|].
    destruct (has_newline (buf ++ chunk)); [reflexivity|].
    apply IH; lia.
Qed.

Lemma recv_loop_throws (fuel : nat) (buf : bytes) :
  throws (recv_loop fuel buf) socket_failure.
Proof.
  revert buf. induction fuel as [|fuel IH]; intros buf; cbn [recv_loop].
  - intros s e s' H. discriminate.
  - apply throws_bind; [apply recv_throws|]. intros chunk.
    destruct (is_empty chunk); [intros s e s' H; discriminate|].
    destruct (has_newline (buf ++ chunk)); [intros s e s' H; discriminate|].
    apply IH.
Qed.

Lemma recv_loop_timeout (fuel : nat) (buf : bytes) :
  keeps_timeout (recv_loop fuel buf).
Proof.
  revert buf. induction fuel as [|fuel IH]; intros buf; cbn [recv_loop].
  - intros s. reflexivity.
  - apply keeps_timeout_bind; [apply recv_timeout|]. intros chunk.
    destruct (is_empty chunk); [intros s; reflexivity|].
    destruct (has_newline (buf ++ chunk)); [intros s; reflexivity|].
    apply IH.
Qed.

Lemma has_newline_app (a b : bytes) :
  has_newline (a ++ b) = has_newline a || has_newline b.
Proof. apply existsb_app. Qed.

(** One turn of the loop on a reply that is [partial]. *)
Lemma recv_loop_step (fuel : nat) (buf : bytes) (s : state)
      (t : N) (chunk : bytes) (rest : list (reply bytes)) :
  timeout s = Some limit ->
  inbox s = Completes t chunk :: rest ->
  t < limit -> chunk <> [] ->
  has_newline (buf ++ chunk) = false ->
  recv_loop (S fuel) buf s =
  recv_loop fuel (buf ++ chunk)
            (tick t (set_inbox rest (log (CRecv 4096) s))).
Proof.
  intros Ht Hi Hlt Hne Hnl. rewrite recv_loop_S.
  rewrite recv_eq, Hi. erewrite blocking_eq by exact Ht.
  cbn [delay]. apply N.leb_gt in Hlt. rewrite Hlt.
  destruct chunk; [easy|]. cbn [is_empty]. now rewrite Hnl.
Qed.

(** The state after the loop has gone through the replies [pre], all of them
    [partial]. *)
Lemma recv_loop_partials (pre rest : list (reply bytes)) :
  Forall partial pre ->
  forall (fuel : nat) (buf : bytes) (s : state),
    timeout s = Some limit ->
    inbox s = pre ++ rest ->
    has_newline buf = false ->
    exists s',
      recv_loop (List.length pre + fuel) buf s =
      recv_loop fuel (buf ++ List.concat (map payload pre)) s' /\
      timeout s' = Some limit /\ inbox s' = rest /\
      stdout s' = stdout s /\ stderr s' = stderr s /\ sock s' = sock s /\
      has_newline (buf ++ List.concat (map payload pre)) = false.
Proof.
  induction 1 as [|r pre Hr Hpre IH]; intros fuel buf s Ht Hi Hnl.
  - exists s. cbn. rewrite app_nil_r. auto 10.
  - destruct Hr as (t & chunk & -> & Hlt & Hne & Hc).
    assert (Hnl' : has_newline (buf ++ chunk) = false)
      by (rewrite has_newline_app, Hnl, Hc; reflexivity).
    cbn [List.length Nat.add app] in *.
    rewrite (recv_loop_step _ _ _ t chunk (pre ++ rest)) by assumption.
    destruct (IH fuel (buf ++ chunk)
                 (tick t (set_inbox (pre ++ rest) (log (CRecv 4096) s))))
      as (s' & E & H1 & H2 & H3 & H4 & H5 & H6); try assumption; try reflexivity.
    exists s'. cbn [map List.concat payload]. rewrite app_assoc.
    repeat split; assumption.
Qed.

(** ** The script, block by block *)

Lemma resolve_endpoint_eq (w : world) (s : state) :
  resolve_endpoint w s =
  match environ w with
  | Some (c :: p) => (Ok (c :: p), log (CGetenv BANJO_PERMISSION_SOCKET) s)
  | _ => (Raise (SystemExit 0), log (CGetenv BANJO_PERMISSION_SOCKET) s)
  end.
Proof.
  unfold resolve_endpoint, os_environ_get, bind, effect, ret, sys_exit, raise.
  destruct (environ w) as [[|c p]|]; reflexivity.
Qed.

Lemma get_dict (d : dict) (key : string) (default : value) (s : state) :
  get (PDict d) (lit key) default s = (Ok (get_or d key default), s).
Proof. reflexivity. Qed.

Lemma parse_query_eq (w : world) (s : state) :
  parse_query w s =
  match json_loads (stdin w) with
  | Ok (PDict q) => (Ok (request_of q), log CReadStdin s)
  | Ok _ => (Raise AttributeError, log CReadStdin s)
  | Raise (JSONDecodeError msg) =>
    (Raise (SystemExit 1),
     write_stderr (invalid_input (JSONDecodeError msg)) (log CReadStdin s))
  | Raise e => (Raise e, log CReadStdin s)
  end.
Proof.
  unfold parse_query, json_load_stdin, try_except, bind, effect, lift.
  destruct (json_loads (stdin w)) as [v | e].
  - destruct v; reflexivity.
  - destruct e; reflexivity.
Qed.

Lemma parse_query_throws (w : world) : throws (parse_query w) query_failure.
Proof.
  intros s e s'. rewrite parse_query_eq.
  destruct (json_loads (stdin w)) as [v | e0] eqn:E.
  - destruct v; intros H; inversion H; subst; right; right; reflexivity.
  - destruct (json_loads_throws _ _ E) as [msg ->].
    intros H; inversion H; subst. right; left; reflexivity.
Qed.

Lemma encode_request (rq : value) (s : state) :
  exists b, encode (json_dumps rq) s = (Ok b, s).
Proof.
  destruct (encode_json_dumps rq) as [b E]. exists b.
  unfold encode. now rewrite E.
Qed.

Lemma throws_weaken {A} (c : M A) (P Q : exn -> Prop) :
  throws c P -> (forall e, P e -> Q e) -> throws c Q.
Proof. intros H HPQ s e s' E. eauto. Qed.

Lemma throws_nothing {A} (c : M A) (P : exn -> Prop) :
  (forall s, exists a, c s = (Ok a, s)) -> throws c P.
Proof. intros H s e s' E. destruct (H s) as [a Ea]. congruence. Qed.

Lemma throws_effect (f : state -> state) (P : exn -> Prop) :
  throws (effect f) P.
Proof. intros s e s' E. discriminate. Qed.

Lemma throws_ret {A} (a : A) (P : exn -> Prop) : throws (ret a) P.
Proof. intros s e s' E. discriminate. Qed.

Lemma throws_raise {A} (e : exn) (P : exn -> Prop) :
  P e -> throws (@raise A e) P.
Proof. intros H s e' s' E. inversion E; subst. exact H. Qed.

Lemma exchange_throws (w : world) (p : str) (rq : value) :
  throws (exchange w p rq) socket_failure.
Proof.
  unfold exchange, socket_socket, settimeout, connect, sendall, close.
  apply throws_bind; [|intros _].
  { apply throws_bind; [apply throws_effect|intros _].
    destruct (on_socket w); [|apply throws_effect].
    apply throws_raise. right. eexists; reflexivity. }
  apply throws_bind; [|intros _].
  { apply throws_bind; [|intros _]; apply throws_effect. }
  apply throws_bind; [|intros _].
  { apply throws_bind; [apply throws_effect|intros _].
    apply throws_bind; [apply blocking_throws|intros _].
    apply throws_effect. }
  apply throws_bind; [apply throws_nothing; apply encode_request|intros bs].
  apply throws_bind; [|intros _].
  { apply throws_bind; [apply throws_effect|intros _].
    apply blocking_throws. }
  apply throws_bind; [intros s; apply recv_loop_throws|intros b].
  apply throws_bind; [|intros _; apply throws_ret].
  apply throws_bind; [|intros _]; apply throws_effect.
Qed.

(** The run before line 47: how lines 23-45 end. *)
Lemma request_reply_eq (w : world) :
  request_reply w (initial w) =
  match environ w with
  | Some (c :: p) =>
    match json_loads (stdin w) with
    | Ok (PDict q) => exchange w (c :: p) (request_of q) (after_stdin w)
    | Ok _ => (Raise AttributeError, after_stdin w)
    | Raise (JSONDecodeError msg) =>
      (Raise (SystemExit 1),
       write_stderr (invalid_input (JSONDecodeError msg)) (after_stdin w))
    | Raise e => (Raise e, after_stdin w)
    end
  | _ => (Raise (SystemExit 0), after_getenv w)
  end.
Proof.
  unfold request_reply. unfold bind at 1. rewrite resolve_endpoint_eq.
  destruct (environ w) as [[|c p]|]; try reflexivity.
  unfold bind. rewrite parse_query_eq.
  destruct (json_loads (stdin w)) as [[] | []]; reflexivity.
Qed.

Lemma main_eq (w : world) :
  main w (initial w) =
  match environ w with
  | Some (c :: p) =>
    match json_loads (stdin w) with
    | Ok (PDict q) =>
      match exchange w (c :: p) (request_of q) (after_stdin w) with
      | (Ok b, s) => respond b s
      | (Raise e, s) =>
        match handlers e with
        | Some handler => handler s
        | None => (Raise e, s)
        end
      end
    | Ok _ => (Raise AttributeError, after_stdin w)
    | Raise (JSONDecodeError msg) =>
      (Raise (SystemExit 1),
       write_stderr (invalid_input (JSONDecodeError msg)) (after_stdin w))
    | Raise e => (Raise e, after_stdin w)
    end
  | _ => (Raise (SystemExit 0), after_getenv w)
  end.
Proof.
  unfold main. unfold bind at 1. rewrite resolve_endpoint_eq.
  destruct (environ w) as [[|c p]|]; try reflexivity.
  unfold bind at 1. rewrite parse_query_eq.
  destruct (json_loads (stdin w)) as [[] | []]; try reflexivity.
  rewrite try_except_bind. reflexivity.
Qed.

(** The rest of the run once lines 23-67 have given their result: the
    response is handled, a socket failure is reported, anything else goes
    on as it is. *)
Lemma main_after (w : world) :
  main w (initial w) =
  match request_reply w (initial w) with
  | (Ok b, s) => respond b s
  | (Raise SocketTimeout, s) =>
    (Raise (SystemExit 0), write_stderr timed_out s)
  | (Raise (OSError msg), s) =>
    (Raise (SystemExit 0), write_stderr (socket_error (OSError msg)) s)
  | (Raise e, s) => (Raise e, s)
  end.
Proof.
  rewrite main_eq, request_reply_eq.
  destruct (environ w) as [[|c p]|]; try reflexivity.
  destruct (json_loads (stdin w)) as [v | e] eqn:E.
  - destruct v; try reflexivity.
    destruct (exchange w (c :: p) (request_of d) (after_stdin w))
      as [[b | e] s] eqn:X; [reflexivity|].
    destruct (exchange_throws _ _ _ _ _ _ X) as [-> | [msg ->]]; reflexivity.
  - destruct (json_loads_throws _ _ E) as [msg ->]. reflexivity.
Qed.

Lemma parse_response_eq (b : bytes) (s : state) :
  parse_response b s =
  match b with
  | [] => (Raise (SystemExit 0), write_stderr empty_response s)
  | _ :: _ =>
    match decode_utf8 b with
    | Some t => (json_loads (strip t), s)
    | None => (Raise UnicodeDecodeError, s)
    end
  end.
Proof.
  unfold parse_response, decode, bind, lift.
  destruct b as [|x b]; [reflexivity|]. cbn [is_empty ret].
  destruct (decode_utf8 (x :: b)); reflexivity.
Qed.

Lemma emit_eq (v : value) (s : state) :
  emit v s =
  match v with
  | PDict d =>
    let decision := get_or d "decision" (PStr (lit "ask")) in
    let message := get_or d "message" (PStr []) in
    if eq_str decision (lit "allow") then
      (Raise (SystemExit 0), write_stdout (printed allow_output) s)
    else if eq_str decision (lit "deny") then
      (Raise (SystemExit 0),
       write_stdout (printed (deny_output (message_or_default message))) s)
    else (Raise (SystemExit 0), s)
  | _ => (Raise AttributeError, s)
  end.
Proof.
  destruct v; try reflexivity.
  unfold emit. unfold bind at 1. rewrite get_dict.
  unfold bind at 1. rewrite get_dict. cbv zeta.
  unfold bind at 1.
  destruct (eq_str _ (lit "allow")); [reflexivity|].
  destruct (eq_str _ (lit "deny")); reflexivity.
Qed.

(** [emit] ends with an exception that no except clause catches. *)
Lemma emit_uncaught (v : value) (s : state) :
  exists e s', emit v s = (Raise e, s') /\ handlers e = None.
Proof.
  rewrite emit_eq. destruct v; try (do 2 eexists; split; reflexivity).
  cbv zeta. destruct (eq_str _ (lit "allow"));
    [|destruct (eq_str _ (lit "deny"))];
    do 2 eexists; split; reflexivity.
Qed.

Lemma respond_eq (b : bytes) (s : state) :
  respond b s =
  match b with
  | [] => (Raise (SystemExit 0), write_stderr empty_response s)
  | _ :: _ =>
    match decode_utf8 b with
    | None => (Raise UnicodeDecodeError, s)
    | Some t =>
      match json_loads (strip t) with
      | Ok v => emit v s
      | Raise (JSONDecodeError msg) =>
        (Raise (SystemExit 0),
         write_stderr (invalid_response (JSONDecodeError msg)) s)
      | Raise e => (Raise e, s)
      end
    end
  end.
Proof.
  unfold respond. rewrite try_except_bind, parse_response_eq.
  destruct b as [|x b]; [reflexivity|].
  destruct (decode_utf8 (x :: b)) as [t|]; [|reflexivity].
  destruct (json_loads (strip t)) as [v | e] eqn:E.
  - unfold try_except.
    destruct (emit_uncaught v s) as (e & s' & -> & ->). reflexivity.
  - destruct (json_loads_throws _ _ E) as [msg ->]. reflexivity.
Qed.

(** ** The run up to the response *)

Lemma request_reply_stdout (w : world) :
  stdout (snd (request_reply w (initial w))) = [].
Proof.
  rewrite request_reply_eq.
  destruct (environ w) as [[|c p]|]; try reflexivity.
  destruct (json_loads (stdin w)) as [[] | []]; try reflexivity.
  apply quiet_exchange.
Qed.

Lemma request_reply_stderr (w : world) :
  fst (request_reply w (initial w)) <> Raise (SystemExit 1) ->
  stderr (snd (request_reply w (initial w))) = [].
Proof.
  rewrite request_reply_eq.
  destruct (environ w) as [[|c p]|]; try reflexivity.
  destruct (json_loads (stdin w)) as [[] | []]; try reflexivity; try easy.
  intros _. apply quiet_exchange.
Qed.

Lemma replied_inv (w : world) (b : bytes) :
  replied w b ->
  exists s, request_reply w (initial w) = (Ok b, s) /\
            stdout s = [] /\ stderr s = [].
Proof.
  unfold replied. intros H.
  pose proof (request_reply_stdout w) as H1.
  pose proof (request_reply_stderr w) as H2.
  destruct (request_reply w (initial w)) as [r s]. cbn in *. subst r.
  exists s. repeat split; auto. apply H2. discriminate.
Qed.

Lemma failed_inv (w : world) (e : exn) :
  failed w e -> e <> SystemExit 1 ->
  exists s, request_reply w (initial w) = (Raise e, s) /\
            stdout s = [] /\ stderr s = [].
Proof.
  unfold failed. intros H Hne.
  pose proof (request_reply_stdout w) as H1.
  pose proof (request_reply_stderr w) as H2.
  destruct (request_reply w (initial w)) as [r s]. cbn in *. subst r.
  exists s. repeat split; auto. apply H2. congruence.
Qed.

Lemma received_inv (w : world) (response : value) :
  received w response ->
  exists b t, replied w b /\ b <> [] /\ decode_utf8 b = Some t /\
              json_loads (strip t) = Ok response.
Proof.
  unfold received, receive, replied, bind.
  destruct (request_reply w (initial w)) as [[b | e] s]; [|discriminate].
  rewrite parse_response_eq. destruct b as [|x b]; [discriminate|].
  destruct (decode_utf8 (x :: b)) as [t|] eqn:E; [|discriminate].
  cbn [fst]. intros H. exists (x :: b), t. repeat split; auto. discriminate.
Qed.

(** Once the response is there, the rest of the run is [emit]. *)
Lemma main_received (w : world) (response : value) :
  received w response ->
  exists s, stdout s = [] /\ stderr s = [] /\
            main w (initial w) = emit response s.
Proof.
  intros H. destruct (received_inv _ _ H) as (b & t & Hb & Hne & Ht & Hv).
  destruct (replied_inv _ _ Hb) as (s & E & H1 & H2).
  exists s. repeat split; auto.
  rewrite main_after, E, respond_eq. destruct b; [easy|].
  now rewrite Ht, Hv.
Qed.

Lemma str_eqb_refl (a : str) : str_eqb a a = true.
Proof. induction a as [|x a IH]; cbn; [reflexivity|]. now rewrite N.eqb_refl. Qed.

Lemma str_eqb_eq (a b : str) : str_eqb a b = true <-> a = b.
Proof.
  split; [|intros ->; apply str_eqb_refl].
  revert b. induction a as [|x a IH]; destruct b as [|y b]; cbn;
    try easy.
  intros H. apply andb_true_iff in H as [H1 H2].
  apply N.eqb_eq in H1. f_equal; auto.
Qed.

Lemma eq_str_true (v : value) (s : str) : eq_str v s = true <-> v = PStr s.
Proof.
  destruct v; cbn; try (split; [discriminate | intros H; discriminate]).
  rewrite str_eqb_eq. split; [now intros -> | now intros [= ->]].
Qed.

(** A decision that is neither "allow" nor "deny" ends the run silently. *)
Lemma emit_other (d : dict) (s : state) :
  dict_lookup d (lit "decision") <> Some (PStr (lit "allow")) ->
  dict_lookup d (lit "decision") <> Some (PStr (lit "deny")) ->
  emit (PDict d) s = (Raise (SystemExit 0), s).
Proof.
  intros Ha Hd. rewrite emit_eq. cbv zeta.
  assert (Hna : eq_str (get_or d "decision" (PStr (lit "ask")))
                       (lit "allow") = false).
  { unfold get_or. destruct (dict_lookup d (lit "decision")) as [v|];
      [|reflexivity].
    destruct (eq_str v (lit "allow")) eqn:X; [|reflexivity].
    apply eq_str_true in X. subst v. now elim Ha. }
  assert (Hnd : eq_str (get_or d "decision" (PStr (lit "ask")))
                       (lit "deny") = false).
  { unfold get_or. destruct (dict_lookup d (lit "decision")) as [v|];
      [|reflexivity].
    destruct (eq_str v (lit "deny")) eqn:X; [|reflexivity].
    apply eq_str_true in X. subst v. now elim Hd. }
  now rewrite Hna, Hnd.
Qed.

(** ** The exchange, call by call *)

Lemma exchange_refused (w : world) (p : str) (rq : value) (s : state)
      (msg : string) :
  on_socket w = Some msg ->
  exchange w p rq s = (Raise (OSError msg), log CSocket s).
Proof.
  intros H. unfold exchange, socket_socket, bind, effect, raise.
  now rewrite H.
Qed.

Lemma exchange_eq (w : world) (p : str) (rq : value) (s : state) :
  on_socket w = None ->
  exists bs,
    encode_utf8 (json_dumps rq) = Some bs /\
    exchange w p rq s =
    match blocking (on_connect w) (connecting p s) with
    | (Raise e, s1) => (Raise e, s1)
    | (Ok _, s1) =>
      match blocking (on_sendall w) (sending (bs ++ [x0a]) s1) with
      | (Raise e, s2) => (Raise e, s2)
      | (Ok _, s2) =>
        match recv_loop (S (List.length (inbox s2))) [] s2 with
        | (Raise e, s3) => (Raise e, s3)
        | (Ok b, s3) => (Ok b, set_sock Closed (log CClose s3))
        end
      end
    end.
Proof.
  intros H. destruct (encode_json_dumps rq) as [bs E]. exists bs.
  split; [exact E|].
  unfold exchange, socket_socket, settimeout, connect, sendall, close,
    encode, bind, effect, ret, raise.
  rewrite H, E.
  match goal with
  | |- context [blocking (on_connect w) ?st] =>
    change st with (connecting p s)
  end.
  destruct (blocking (on_connect w) (connecting p s)) as [[[] | e] s1];
    [|reflexivity].
  match goal with
  | |- context [blocking (on_sendall w) ?st] =>
    change st with (sending (bs ++ [x0a]) s1)
  end.
  destruct (blocking (on_sendall w) (sending (bs ++ [x0a]) s1))
    as [[[] | e] s2]; [|reflexivity].
  destruct (recv_loop _ [] s2) as [[b | e] s3]; reflexivity.
Qed.

Lemma blocking_late {A} (r : reply A) (s : state) :
  timeout s = Some limit -> limit <= delay r ->
  blocking r s = (Raise SocketTimeout, tick limit s).
Proof.
  intros Ht Hl. rewrite (blocking_eq r s limit Ht).
  apply N.leb_le in Hl. now rewrite Hl.
Qed.

Lemma blocking_done {A} (t : N) (a : A) (s : state) :
  timeout s = Some limit -> t < limit ->
  blocking (Completes t a) s = (Ok a, tick t s).
Proof.
  intros Ht Hl. rewrite (blocking_eq _ s limit Ht). cbn [delay].
  apply N.leb_gt in Hl. now rewrite Hl.
Qed.

(** A call that overruns the timeout ends lines 49-65 with
    socket.timeout. *)
Lemma exchange_overrun (w : world) (p : str) (rq : value) (s : state) :
  on_socket w = None -> inbox s = on_recv w -> overrun w ->
  exists s', exchange w p rq s = (Raise SocketTimeout, s').
Proof.
  intros Hs Hi Ho. destruct (exchange_eq w p rq s Hs) as (bs & _ & ->).
  destruct Ho as [Hc | t Hc Ht Hl | t t' pre r post Hc Ht Hd Ht' Hr Hp Hl].
  - rewrite blocking_late by (assumption || reflexivity). eauto.
  - rewrite Hc, blocking_done by (assumption || reflexivity).
    rewrite blocking_late by (assumption || reflexivity). eauto.
  - rewrite Hc, blocking_done by (assumption || reflexivity).
    rewrite Hd, blocking_done by (assumption || reflexivity).
    set (s2 := tick t' (sending (bs ++ [x0a]) (tick t (connecting p s)))).
    assert (Hi2 : inbox s2 = pre ++ r :: post) by (rewrite <- Hr, <- Hi; reflexivity).
    rewrite Hi2.
    replace (S (List.length (pre ++ r :: post)))
      with (List.length pre + S (S (List.length post)))%nat
      by (rewrite length_app; cbn; lia).
    destruct (recv_loop_partials pre (r :: post) Hp
                (S (S (List.length post))) [] s2)
      as (s3 & -> & Ht3 & Hi3 & _); try reflexivity; try assumption.
    rewrite recv_loop_S, recv_eq, Hi3.
    rewrite blocking_late by (assumption || reflexivity). eauto.
Qed.

(* ===================================================================== *)
(** * The properties of the relay *)
(* ===================================================================== *)

Import Worlds.

Lemma terminate_exit (code : Z) (s : state) :
  terminate (Raise (SystemExit code), s) = (code, s).
Proof. reflexivity. Qed.

Lemma run_exit (w : world) (code : Z) (s : state) :
  main w (initial w) = (Raise (SystemExit code), s) ->
  exit_status w = code /\ final w = s.
Proof. unfold exit_status, final, run. intros ->. now split. Qed.

Lemma allow_document :
  printed allow_output =
  quoted "{'hookSpecificOutput': {'hookEventName': 'PermissionRequest', 'decision': {'behavior': 'allow'}}}"
  ++ [10].
Proof. reflexivity. Qed.

(** C1: when the response received has the decision "allow", standard output
    holds exactly the allow document (as [print] writes it, with its newline)
    and the exit status is 0. *)
Theorem allow_writes_allow_document (w : world) (response : dict) :
  received w (PDict response) ->
  dict_lookup response (lit "decision") = Some (PStr (lit "allow")) ->
  stdout (final w) =
    quoted "{'hookSpecificOutput': {'hookEventName': 'PermissionRequest', 'decision': {'behavior': 'allow'}}}"
    ++ [10]
  /\ exit_status w = 0%Z.
Proof.
  intros Hr Hd. destruct (main_received _ _ Hr) as (s & Hout & _ & E).
  rewrite emit_eq in E. unfold get_or in E. rewrite Hd in E.
  cbv zeta in E. cbn [eq_str] in E. rewrite str_eqb_refl in E.
  apply run_exit in E as [-> ->]. split; [|reflexivity].
  cbn [stdout write_stdout]. rewrite Hout. apply allow_document.
Qed.

Lemma allow_writes_allow_document_witness :
  received w_allow (PDict [(lit "decision", PStr (lit "allow"))]) /\
  stdout (final w_allow) =
    quoted "{'hookSpecificOutput': {'hookEventName': 'PermissionRequest', 'decision': {'behavior': 'allow'}}}"
    ++ [10]
  /\ exit_status w_allow = 0%Z.
Proof.
  split; [vm_compute; reflexivity|].
  apply (allow_writes_allow_document
           w_allow [(lit "decision", PStr (lit "allow"))]);
    vm_compute; reflexivity.
Defined.





(** C4: when BANJO_PERMISSION_SOCKET is not set, the script exits with
    status 0 right after looking it up: nothing is written, standard input
    is not read and no socket is made. *)
Theorem no_endpoint_exits_at_once (w : world) :
  environ w = None ->
  exit_status w = 0%Z /\ stdout (final w) = [] /\ stderr (final w) = [] /\
  calls (final w) = [CGetenv BANJO_PERMISSION_SOCKET] /\
  sock (final w) = NoSocket.
Proof.
  intros H. pose proof (main_eq w) as E. rewrite H in E.
  apply run_exit in E as [-> ->]. repeat split.
Qed.

Lemma no_endpoint_exits_at_once_witness :
  environ w_unset = None /\
  exit_status w_unset = 0%Z /\ stdout (final w_unset) = [] /\
  stderr (final w_unset) = [] /\
  calls (final w_unset) = [CGetenv BANJO_PERMISSION_SOCKET] /\
  sock (final w_unset) = NoSocket.
Proof.
  split; [reflexivity|]. apply (no_endpoint_exits_at_once w_unset).
  reflexivity.
Defined.

(** C10: when BANJO_PERMISSION_SOCKET is set to the empty string, the run is
    the run with the variable unset: exit status 0 right after the lookup,
    nothing written, standard input not read. *)
Theorem empty_endpoint_as_absent (w : world) :
  environ w = Some [] ->
  run w = run (without_endpoint w) /\
  exit_status w = 0%Z /\ stdout (final w) = [] /\
  calls (final w) = [CGetenv BANJO_PERMISSION_SOCKET].
Proof.
  intros H. pose proof (main_eq w) as E. rewrite H in E.
  pose proof (main_eq (without_endpoint w)) as E'. cbn [environ without_endpoint] in E'.
  unfold run at 1 2. rewrite E, E'.
  apply run_exit in E as [-> ->]. repeat split.
Qed.

Lemma empty_endpoint_as_absent_witness :
  environ w_empty_endpoint = Some [] /\
  run w_empty_endpoint = run (without_endpoint w_empty_endpoint) /\
  exit_status w_empty_endpoint = 0%Z /\
  stdout (final w_empty_endpoint) = [] /\
  calls (final w_empty_endpoint) = [CGetenv BANJO_PERMISSION_SOCKET].
Proof.
  split; [reflexivity|]. apply (empty_endpoint_as_absent w_empty_endpoint).
  reflexivity.
Defined.

(** A socket failure of lines 49-65 is reported and the run defers. *)
Lemma socket_failure_defers (w : world) (e : exn) :
  failed w e -> socket_failure e ->
  exit_status w = 0%Z /\ stdout (final w) = [] /\
  stderr (final w) = [match e with
                      | SocketTimeout => timed_out
                      | _ => socket_error e
                      end].
Proof.
  intros Hf He.
  destruct (failed_inv _ _ Hf) as (s & E & Hout & Herr).
  { destruct He as [-> | [msg ->]]; discriminate. }
  pose proof (main_after w) as M. rewrite E in M.
  destruct He as [-> | [msg ->]]; apply run_exit in M as [-> ->];
    cbn [stdout stderr write_stderr]; rewrite Hout, Herr; now repeat split.
Qed.

(** What the run makes of the bytes it has read. *)
Lemma replied_respond (w : world) (b : bytes) :
  replied w b ->
  exists s, stdout s = [] /\ stderr s = [] /\
            main w (initial w) = respond b s.
Proof.
  intros H. destruct (replied_inv _ _ H) as (s & E & Hout & Herr).
  exists s. repeat split; auto. now rewrite main_after, E.
Qed.

Lemma emit_dict_exits (d : dict) (s : state) :
  exists s', emit (PDict d) s = (Raise (SystemExit 0), s').
Proof.
  rewrite emit_eq. cbv zeta.
  destruct (eq_str _ (lit "allow")); [|destruct (eq_str _ (lit "deny"))];
    eexists; reflexivity.
Qed.

(** The exit status by input and response: with an endpoint configured,
    input that json.load rejects with a JSONDecodeError gives the diagnostic
    of line 31, no output and exit status 1; a run whose input is a JSON
    object, and whose response (when one is read) is empty, or UTF-8 text
    that holds a JSON object or that json.loads rejects with a
    JSONDecodeError, has exit status 0. *)
Theorem exit_status_of_input (w : world) :
  (forall c p msg,
      environ w = Some (c :: p) ->
      json_loads (stdin w) = Raise (JSONDecodeError msg) ->
      exit_status w = 1%Z /\ stdout (final w) = [] /\
      stderr (final w) = [invalid_input (JSONDecodeError msg)])
  /\
  (forall q,
      json_loads (stdin w) = Ok (PDict q) ->
      (forall b, replied w b -> handled_reply b) ->
      exit_status w = 0%Z).
Proof.
  split.
  - intros c p msg He Hs. pose proof (main_eq w) as M.
    rewrite He, Hs in M. apply run_exit in M as [-> ->]. repeat split.
  - intros q Hs Hb. pose proof (main_after w) as M.
    pose proof (request_reply_eq w) as R. rewrite Hs in R.
    unfold replied in Hb.
    destruct (environ w) as [[|c p]|].
    + rewrite R in M. now apply run_exit in M as [-> _].
    + rewrite R in M, Hb.
      destruct (exchange w (c :: p) (request_of q) (after_stdin w))
        as [[b | e] s] eqn:X.
      * specialize (Hb b eq_refl). rewrite respond_eq in M.
        destruct Hb as [-> | (t & Ht & Hv)];
          [now apply run_exit in M as [-> _]|].
        destruct b; [now apply run_exit in M as [-> _]|].
        rewrite Ht in M. destruct Hv as [[d Hv] | [m Hv]]; rewrite Hv in M.
        -- destruct (emit_dict_exits d s) as [s' E]. rewrite E in M.
           now apply run_exit in M as [-> _].
        -- now apply run_exit in M as [-> _].
      * apply exchange_throws in X.
        destruct X as [-> | [m ->]]; now apply run_exit in M as [-> _].
    + rewrite R in M. now apply run_exit in M as [-> _].
Qed.

Lemma exit_status_of_input_witness :
  (exit_status w_bad_input = 1%Z /\ stdout (final w_bad_input) = [] /\
   stderr (final w_bad_input)
   = [invalid_input (JSONDecodeError "Expecting value")])
  /\ exit_status w_garbled = 0%Z.
Proof.
  split.
  - eapply (proj1 (exit_status_of_input w_bad_input));
      vm_compute; reflexivity.
  - eapply (proj2 (exit_status_of_input w_garbled)).
    + vm_compute; reflexivity.
    + intros b H. vm_compute in H. injection H as <-.
      right. eexists. split; [vm_compute; reflexivity|].
      right. eexists. vm_compute; reflexivity.
Defined.

(** C5 at a run whose input is a well-formed JSON object and whose
    response is the JSON document [[]]: [response.get] at line 74 raises
    AttributeError, which no except clause catches, and the exit status is
    1 although the input is not malformed.  The except clauses for a bad
    response all defer with status 0. *)
Lemma well_formed_input_exit_1 :
  (exists q, json_loads (stdin w_list) = Ok (PDict q)) /\
  on_recv w_list = [Completes 5000 (line "[]")] /\
  exit_status w_list = 1%Z /\
  stderr (final w_list) = [Traceback AttributeError].
Proof.
  split; [eexists; vm_compute; reflexivity|].
  repeat split; vm_compute; reflexivity.
Qed.

(** Against C6 as stated: with the endpoint unset, and with the decision
    "ask", the run defers and nothing is written to the error channel. *)
Lemma silent_deferrals :
  (environ w_unset = None /\ exit_status w_unset = 0%Z /\
   stderr (final w_unset) = [])
  /\
  (received w_ask (PDict [(lit "decision", PStr (lit "ask"))]) /\
   exit_status w_ask = 0%Z /\ stderr (final w_ask) = []).
Proof. repeat split; vm_compute; reflexivity. Qed.

(** C6, as the script has it: every recoverable failure ends with exit
    status 0 and nothing on standard output.  A timeout, any other socket
    error, an empty response, and a response that is UTF-8 text which
    json.loads rejects with a JSONDecodeError each leave one diagnostic on
    the error channel; a missing or empty endpoint, and a response object
    whose decision is neither "allow" nor "deny", leave none. *)
Theorem recoverable_defers (w : world) (diagnostics : list Proc.line) :
  recoverable w diagnostics ->
  exit_status w = 0%Z /\ stdout (final w) = [] /\
  stderr (final w) = diagnostics.
Proof.
  intros [He | Hf | msg Hf | Hb | b t msg Hb Hne Ht Hv | d Hr Ha Hd].
  - pose proof (main_eq w) as M.
    destruct He as [He | He]; rewrite He in M;
      apply run_exit in M as [-> ->]; now repeat split.
  - apply (socket_failure_defers w SocketTimeout Hf). now left.
  - apply (socket_failure_defers w (OSError msg) Hf). right. now exists msg.
  - destruct (replied_respond _ _ Hb) as (s & Hout & Herr & M).
    rewrite respond_eq in M. apply run_exit in M as [-> ->].
    cbn [stdout stderr write_stderr]. rewrite Hout, Herr. now repeat split.
  - destruct (replied_respond _ _ Hb) as (s & Hout & Herr & M).
    rewrite respond_eq in M. destruct b; [easy|]. rewrite Ht, Hv in M.
    apply run_exit in M as [-> ->].
    cbn [stdout stderr write_stderr]. rewrite Hout, Herr. now repeat split.
  - destruct (main_received _ _ Hr) as (s & Hout & Herr & M).
    rewrite emit_other in M by assumption.
    apply run_exit in M as [-> ->]. now repeat split.
Qed.

Lemma recoverable_defers_witness :
  (exit_status w_silent = 0%Z /\ stdout (final w_silent) = [] /\
   stderr (final w_silent) = [timed_out])
  /\
  (exit_status w_refused = 0%Z /\ stdout (final w_refused) = [] /\
   stderr (final w_refused)
   = [socket_error (OSError "[Errno 111] Connection refused")])
  /\
  (exit_status w_hangup = 0%Z /\ stdout (final w_hangup) = [] /\
   stderr (final w_hangup) = [empty_response]).
Proof.
  repeat apply conj.
  1-3: apply (recoverable_defers w_silent [timed_out]);
       apply timeout_expired; vm_compute; reflexivity.
  1-3: apply (recoverable_defers w_refused
                [socket_error (OSError "[Errno 111] Connection refused")]);
       apply connection_failure; vm_compute; reflexivity.
  all: apply (recoverable_defers w_hangup [empty_response]);
       apply no_response; vm_compute; reflexivity.
Defined.

(** Against C7 as stated: every call on the socket returns within 60
    seconds, the run waits 90 seconds and more in all, and it ends with the
    allow document and no diagnostic. *)
Lemma slow_answer_is_not_timed_out :
  on_connect w_slow = Completes 1 tt /\
  on_sendall w_slow = Completes 1 tt /\
  map delay (on_recv w_slow) = [45000; 45000] /\
  clock (final w_slow) = 90002 /\ limit < clock (final w_slow) /\
  stdout (final w_slow) = printed allow_output /\
  stderr (final w_slow) = [] /\ exit_status w_slow = 0%Z.
Proof. repeat split; vm_compute; reflexivity. Qed.

(** C7, as the script has it: the 60 seconds are the timeout of each
    blocking call on the socket.  When [connect], [sendall] or a [recv] that
    the loop gets to does not complete within 60 seconds, the run ends with
    the timeout diagnostic, nothing on standard output and exit status 0. *)
Theorem overrun_times_out (w : world) (c : N) (p : str) (q : dict) :
  environ w = Some (c :: p) ->
  json_loads (stdin w) = Ok (PDict q) ->
  on_socket w = None ->
  overrun w ->
  exit_status w = 0%Z /\ stdout (final w) = [] /\
  stderr (final w) = [timed_out].
Proof.
  intros He Hq Hs Ho.
  apply (socket_failure_defers w SocketTimeout); [|now left].
  unfold failed. rewrite request_reply_eq, He, Hq.
  destruct (exchange_overrun w (c :: p) (request_of q) (after_stdin w))
    as [s' ->]; auto.
Qed.

Lemma overrun_times_out_witness :
  overrun w_silent /\
  exit_status w_silent = 0%Z /\ stdout (final w_silent) = [] /\
  stderr (final w_silent) = [timed_out].
Proof.
  assert (H : overrun w_silent).
  { apply (recv_overrun w_silent 1 1 []
             (Completes 61000 (line "{'decision': 'allow'}")) []);
      try reflexivity; [constructor | vm_compute; discriminate]. }
  split; [exact H|].
  eapply (overrun_times_out w_silent);
    [reflexivity | vm_compute; reflexivity | reflexivity | exact H].
Defined.


(** ** What the loop has read when it ends *)




(** What a caller sees of lines 69-110 depends on the state only through
    what the standard streams hold already. *)
Lemma respond_outcome (b : bytes) (s1 s2 : state) :
  stdout s1 = stdout s2 -> stderr s1 = stderr s2 ->
  outcome (respond b s1) = outcome (respond b s2).
Proof.
  intros Ho He. rewrite !respond_eq.
  destruct b as [|x b]; [cbn; now rewrite Ho, He|].
  destruct (decode_utf8 (x :: b)) as [t|]; [|cbn; now rewrite Ho, He].
  destruct (json_loads (strip t)) as [v | e].
  - rewrite !emit_eq. destruct v; try (cbn; now rewrite Ho, He).
    cbv zeta. destruct (eq_str _ (lit "allow"));
      [|destruct (eq_str _ (lit "deny"))];
      unfold outcome; cbn [terminate stdout stderr write_stdout];
      now rewrite Ho, He.
  - destruct e; cbn; now rewrite Ho, He.
Qed.




(* ===================================================================== *)
(** * More properties of the script *)
(* ===================================================================== *)

(** ** What each part of the script leaves alone *)

Lemma blocking_frame {A} (r : reply A) (s : state) :
  stdout (snd (blocking r s)) = stdout s /\
  stderr (snd (blocking r s)) = stderr s /\
  calls (snd (blocking r s)) = calls s /\
  sock (snd (blocking r s)) = sock s /\
  timeout (snd (blocking r s)) = timeout s /\
  inbox (snd (blocking r s)) = inbox s.
Proof.
  unfold blocking.
  destruct (timeout s) as [l|] eqn:E; [destruct (l <=? delay r)|];
    destruct r; cbn; rewrite ?E; repeat split.
Qed.

Lemma respond_frame (b : bytes) (s : state) :
  calls (snd (respond b s)) = calls s /\
  sock (snd (respond b s)) = sock s /\
  clock (snd (respond b s)) = clock s.
Proof.
  rewrite respond_eq. destruct b; [repeat split|].
  destruct (decode_utf8 _); [|repeat split].
  destruct (json_loads _) as [v | e].
  - rewrite emit_eq. destruct v; try solve [repeat split]. cbv zeta.
    destruct (eq_str _ _); [repeat split|].
    destruct (eq_str _ _); repeat split.
  - destruct e; repeat split.
Qed.

Lemma terminate_frame (r : result unit * state) :
  calls (snd (terminate r)) = calls (snd r) /\
  sock (snd (terminate r)) = sock (snd r) /\
  clock (snd (terminate r)) = clock (snd r).
Proof. destruct r as [[u | e] s]; [|destruct e]; repeat split. Qed.

Lemma main_frame (w : world) :
  calls (final w) = calls (snd (request_reply w (initial w))) /\
  sock (final w) = sock (snd (request_reply w (initial w))) /\
  clock (final w) = clock (snd (request_reply w (initial w))).
Proof.
  unfold final, run.
  destruct (terminate_frame (main w (initial w))) as (-> & -> & ->).
  rewrite main_after.
  destruct (request_reply w (initial w)) as [[b | e] s]; cbn [snd].
  - apply respond_frame.
  - destruct e; repeat split.
Qed.

(** ** How a run can end *)

Ltac ending_case Ho He :=
  cbn; rewrite ?Ho, ?He; split; [|easy];
  first [ constructor; split; [reflexivity | discriminate]
        | constructor ].

(** What lines 69-110 make of the bytes read. *)
Lemma respond_ending (b : bytes) (s : state) :
  stdout s = [] -> stderr s = [] ->
  let '(code, out, err) := outcome (respond b s) in
  ending code out err /\ (out <> [] -> err = []).
Proof.
  intros Ho He. rewrite respond_eq.
  destruct b as [|x b]; [solve [ending_case Ho He]|].
  destruct (decode_utf8 (x :: b)) as [t|]; [|solve [ending_case Ho He]].
  destruct (json_loads (strip t)) as [v | e] eqn:J.
  - rewrite emit_eq.
    destruct v; try solve [ending_case Ho He].
    cbv zeta.
    destruct (eq_str _ _); [solve [ending_case Ho He]|].
    destruct (eq_str _ _); solve [ending_case Ho He].
  - destruct (json_loads_throws _ _ J) as [msg ->].
    solve [ending_case Ho He].
Qed.

Lemma outcome_run (w : world) :
  outcome (main w (initial w))
  = (exit_status w, stdout (final w), stderr (final w)).
Proof.
  unfold outcome, exit_status, final, run.
  now destruct (terminate (main w (initial w))).
Qed.

Lemma exchange_quiet_at (w : world) (p : str) (rq : value) (r : result bytes)
      (s : state) :
  exchange w p rq (after_stdin w) = (r, s) -> stdout s = [] /\ stderr s = [].
Proof.
  intros X. destruct (quiet_exchange w p rq (after_stdin w)) as [Ho He].
  rewrite X in Ho, He. now split.
Qed.

(** The course of a run: no endpoint; input that is no JSON document; input
    that is no object; a socket call that times out or fails; a response
    read, and handled by lines 69-110. *)
Lemma run_cases (w : world) :
  (~ configured w /\ outcome (main w (initial w)) = (0%Z, [], []))
  \/
  (configured w /\
   ((exists msg,
        json_loads (stdin w) = Raise (JSONDecodeError msg) /\
        outcome (main w (initial w))
        = (1%Z, [], [invalid_input (JSONDecodeError msg)]))
    \/
    (exists v,
        json_loads (stdin w) = Ok v /\ not_object v /\
        outcome (main w (initial w)) = (1%Z, [], [Traceback AttributeError]))
    \/
    (object_input w /\
     ((failed w SocketTimeout /\
       outcome (main w (initial w)) = (0%Z, [], [timed_out]))
      \/
      (exists msg,
          failed w (OSError msg) /\
          outcome (main w (initial w))
          = (0%Z, [], [socket_error (OSError msg)]))
      \/
      (exists b,
          replied w b /\
          outcome (main w (initial w)) = outcome (respond b (initial w))))))).
Proof.
  pose proof (main_after w) as M. pose proof (request_reply_eq w) as R.
  unfold configured, object_input, failed, replied.
  destruct (environ w) as [[|c p]|] eqn:E.
  - left. rewrite R in M. rewrite M.
    split; [intros (c & p & H); discriminate | reflexivity].
  - right. split; [now exists c, p|].
    destruct (json_loads (stdin w)) as [v | e] eqn:J.
    + destruct v as [| x | x | x | x | x | q];
        try (right; left; eexists; split; [reflexivity|];
             split; [exact I|]; rewrite R in M; rewrite M; reflexivity).
      right; right. split; [now exists q|].
      destruct (exchange w (c :: p) (request_of q) (after_stdin w))
        as [[b | e] s] eqn:X;
        destruct (exchange_quiet_at _ _ _ _ _ X) as [Ho He];
        rewrite R in M |- *; cbn [fst].
      * right; right. exists b. split; [reflexivity|].
        rewrite M. now apply respond_outcome.
      * destruct (exchange_throws _ _ _ _ _ _ X) as [-> | [msg ->]].
        -- left. split; [reflexivity|]. rewrite M.
           unfold outcome. cbn. now rewrite Ho, He.
        -- right; left. exists msg. split; [reflexivity|]. rewrite M.
           unfold outcome. cbn. now rewrite Ho, He.
    + destruct (json_loads_throws _ _ J) as [msg ->].
      left. exists msg. split; [reflexivity|].
      rewrite R in M. rewrite M. reflexivity.
  - left. rewrite R in M. rewrite M.
    split; [intros (c & p & H); discriminate | reflexivity].
Qed.

(** ** The calls of a run, and the time it waits *)

Lemma blocking_clock {A} (r : reply A) (s : state) :
  timeout s = Some limit ->
  clock (snd (blocking r s)) <= clock s + limit.
Proof.
  intros T. rewrite (blocking_eq r s limit T).
  destruct (limit <=? delay r) eqn:E; [cbn; lia|].
  apply N.leb_gt in E. destruct r; cbn in *; lia.
Qed.

Lemma recv_course (s : state) :
  calls (snd (recv 4096 s)) = calls s ++ [CRecv 4096] /\
  sock (snd (recv 4096 s)) = sock s /\
  timeout (snd (recv 4096 s)) = timeout s /\
  inbox (snd (recv 4096 s)) = tl (inbox s) /\
  (timeout s = Some limit ->
   clock (snd (recv 4096 s))
   <= clock s + (if is_empty (inbox s) then 0 else limit)).
Proof.
  rewrite recv_eq. destruct (inbox s) as [|r rest] eqn:I.
  - cbn. rewrite I. repeat split. intros _. lia.
  - pose proof (blocking_frame r (set_inbox rest (log (CRecv 4096) s)))
      as (_ & _ & Hc & Hs & Ht & Hi).
    rewrite Hc, Hs, Ht, Hi. repeat split.
    intros T. apply (blocking_clock r (set_inbox rest (log (CRecv 4096) s))).
    exact T.
Qed.

Lemma recv_loop_course (fuel : nat) :
  forall (buf : bytes) (s : state),
  exists n,
    (n <= fuel)%nat /\ (1 <= fuel -> 1 <= n)%nat /\
    calls (snd (recv_loop fuel buf s)) = calls s ++ repeat (CRecv 4096) n /\
    sock (snd (recv_loop fuel buf s)) = sock s /\
    (timeout s = Some limit ->
     clock (snd (recv_loop fuel buf s))
     <= clock s + limit * N.of_nat (List.length (inbox s))).
Proof.
  induction fuel as [|fuel IH]; intros buf s.
  - exists 0%nat. cbn. rewrite app_nil_r. repeat split; lia.
  - rewrite recv_loop_S.
    destruct (recv_course s) as (Hc & Hs & Ht & Hi & Hk).
    assert (Hone : forall s1, snd (recv 4096 s) = s1 ->
              exists n,
                (n <= S fuel)%nat /\ (1 <= S fuel -> 1 <= n)%nat /\
                calls s1 = calls s ++ repeat (CRecv 4096) n /\
                sock s1 = sock s /\
                (timeout s = Some limit ->
                 clock s1
                 <= clock s + limit * N.of_nat (List.length (inbox s)))).
    { intros s1 <-. exists 1%nat. repeat split; try lia; try assumption.
      intros T. specialize (Hk T).
      destruct (inbox s); cbn [is_empty List.length] in *; lia. }
    destruct (recv 4096 s) as [[chunk | e] s1]; cbn [snd] in *;
      [|now apply Hone].
    destruct (is_empty chunk); [now apply Hone|].
    destruct (has_newline (buf ++ chunk)); [now apply Hone|].
    destruct (IH (buf ++ chunk) s1) as (n & Hn & _ & Hc' & Hs' & Hk').
    exists (S n). repeat split; try lia.
    + rewrite Hc', Hc, <- app_assoc. reflexivity.
    + congruence.
    + intros T. specialize (Hk T). rewrite Ht, Hi in Hk'.
      specialize (Hk' T).
      destruct (inbox s) as [|r rest];
        cbn [is_empty tl List.length] in *; lia.
Qed.

(** The calls of lines 49-67, the state of the socket they leave and the
    time they take. *)
Lemma exchange_course (w : world) (p : str) (rq : value) (s : state) :
  on_socket w = None ->
  exists bs,
    encode_utf8 (json_dumps rq) = Some bs /\
    clock (snd (exchange w p rq s))
    <= clock s + limit * (2 + N.of_nat (List.length (inbox s))) /\
    match exchange w p rq s with
    | (Ok b, s') =>
      exists n,
        (1 <= n)%nat /\
        calls s' = calls s
                   ++ [CSocket; CSetTimeout 60; CConnect p;
                       CSendall (bs ++ [x0a])]
                   ++ repeat (CRecv 4096) n ++ [CClose] /\
        sock s' = Closed
    | (Raise e, s') =>
      sock s' <> Closed /\
      (calls s' = calls s ++ [CSocket; CSetTimeout 60; CConnect p] \/
       exists n,
         calls s' = calls s
                    ++ [CSocket; CSetTimeout 60; CConnect p;
                        CSendall (bs ++ [x0a])]
                    ++ repeat (CRecv 4096) n)
    end.
Proof.
  intros Hs. destruct (exchange_eq w p rq s Hs) as (bs & E & X).
  exists bs. split; [exact E|]. rewrite X. clear X.
  assert (C0 : calls (connecting p s)
               = calls s ++ [CSocket; CSetTimeout 60; CConnect p]).
  { cbn. now rewrite <- !app_assoc. }
  assert (K0 : clock (connecting p s) = clock s) by reflexivity.
  assert (I0 : inbox (connecting p s) = inbox s) by reflexivity.
  pose proof (blocking_frame (on_connect w) (connecting p s))
    as (_ & _ & C1 & S1 & T1 & I1).
  pose proof (blocking_clock (on_connect w) (connecting p s) eq_refl) as K1.
  destruct (blocking (on_connect w) (connecting p s)) as [[u | e] s1];
    cbn [snd] in *.
  2:{ split; [lia|]. split; [rewrite S1; discriminate|].
      left. now rewrite C1. }
  pose proof (blocking_frame (on_sendall w) (sending (bs ++ [x0a]) s1))
    as (_ & _ & C2 & S2 & T2 & I2).
  pose proof (blocking_clock (on_sendall w) (sending (bs ++ [x0a]) s1) T1)
    as K2.
  assert (C2' : calls (sending (bs ++ [x0a]) s1)
                = calls s ++ [CSocket; CSetTimeout 60; CConnect p;
                              CSendall (bs ++ [x0a])]).
  { cbn. rewrite C1, C0, <- app_assoc. reflexivity. }
  change (clock (sending (bs ++ [x0a]) s1)) with (clock s1) in K2.
  change (inbox (sending (bs ++ [x0a]) s1)) with (inbox s1) in I2.
  change (timeout (sending (bs ++ [x0a]) s1)) with (timeout s1) in T2.
  destruct (blocking (on_sendall w) (sending (bs ++ [x0a]) s1))
    as [[u2 | e] s2]; cbn [snd] in *.
  2:{ split; [lia|]. split; [rewrite S2; discriminate|].
      right. exists 0%nat. rewrite C2, C2'. cbn [repeat].
      now rewrite app_nil_r. }
  destruct (recv_loop_course (S (List.length (inbox s2))) [] s2)
    as (n & _ & Hn & C3 & S3 & K3).
  specialize (Hn ltac:(lia)). specialize (K3 ltac:(rewrite T2, T1; reflexivity)).
  destruct (recv_loop (S (List.length (inbox s2))) [] s2) as [[b | e] s3];
    cbn [snd] in *; rewrite I2, I1, I0 in K3.
  - split; [cbn [clock set_sock log]; lia|].
    exists n. split; [exact Hn|]. split; [|reflexivity].
    cbn [calls set_sock log]. rewrite C3, C2, C2', <- !app_assoc.
    reflexivity.
  - split; [lia|]. split; [rewrite S3, S2; discriminate|].
    right. exists n. rewrite C3, C2, C2', <- !app_assoc. reflexivity.
Qed.

(** Lines 23-67 as a whole. *)
Lemma request_reply_course (w : world) :
  clock (snd (request_reply w (initial w)))
  <= limit * (2 + N.of_nat (List.length (on_recv w))) /\
  match request_reply w (initial w) with
  | (Ok b, s) =>
    exists c p q bs n,
      environ w = Some (c :: p) /\ json_loads (stdin w) = Ok (PDict q) /\
      encode_utf8 (json_dumps (request_of q)) = Some bs /\
      (1 <= n)%nat /\
      calls s = session (c :: p) (bs ++ [x0a]) n /\ sock s = Closed
  | (Raise e, s) =>
    sock s <> Closed /\
    (calls s = [CGetenv BANJO_PERMISSION_SOCKET] \/
     calls s = [CGetenv BANJO_PERMISSION_SOCKET; CReadStdin] \/
     calls s = [CGetenv BANJO_PERMISSION_SOCKET; CReadStdin; CSocket] \/
     exists c p q bs,
       environ w = Some (c :: p) /\ json_loads (stdin w) = Ok (PDict q) /\
       encode_utf8 (json_dumps (request_of q)) = Some bs /\
       (calls s = [CGetenv BANJO_PERMISSION_SOCKET; CReadStdin; CSocket;
                   CSetTimeout 60; CConnect (c :: p)] \/
        exists n,
          calls s = [CGetenv BANJO_PERMISSION_SOCKET; CReadStdin; CSocket;
                     CSetTimeout 60; CConnect (c :: p);
                     CSendall (bs ++ [x0a])]
                    ++ repeat (CRecv 4096) n))
  end.
Proof.
  rewrite request_reply_eq.
  assert (Z0 : 0 <= limit * (2 + N.of_nat (List.length (on_recv w))))
    by lia.
  destruct (environ w) as [[|c p]|] eqn:E;
    try (split; [exact Z0|]; split; [discriminate | now left]).
  destruct (json_loads (stdin w)) as [v | e] eqn:J.
  2:{ destruct e;
        (split; [exact Z0|]; split; [discriminate | right; now left]). }
  destruct v as [| x | x | x | x | x | q];
    try (split; [exact Z0|]; split; [discriminate | right; now left]).
  destruct (on_socket w) as [msg|] eqn:Hs.
  { rewrite (exchange_refused w (c :: p) (request_of q) (after_stdin w) msg Hs).
    split; [exact Z0|]. split; [discriminate|]. right; right; now left. }
  destruct (exchange_course w (c :: p) (request_of q) (after_stdin w) Hs)
    as (bs & Hb & Hk & H).
  split; [cbn [clock after_stdin after_getenv initial log inbox] in Hk; lia|].
  destruct (exchange w (c :: p) (request_of q) (after_stdin w))
    as [[b | e] s].
  - destruct H as (n & Hn & Hc & Hsock).
    exists c, p, q, bs, n. repeat split; assumption.
  - destruct H as (Hsock & Hc). split; [exact Hsock|].
    right; right; right. exists c, p, q, bs.
    split; [reflexivity|]. split; [reflexivity|]. split; [exact Hb|].
    destruct Hc as [Hc | [n Hc]]; [left | right; exists n]; exact Hc.
Qed.

Lemma firstn_length_app {A} (a b : list A) :
  firstn (List.length a) (a ++ b) = a.
Proof. induction a as [|x a IH]; cbn; [now destruct b | now rewrite IH]. Qed.

Lemma newline_free (s : str) :
  printable_only s -> has_newline (map byte_of s) = false.
Proof.
  induction 1 as [|c r Hc Hr IH]; [reflexivity|].
  cbn [map has_newline existsb]. fold (has_newline (map byte_of r)).
  rewrite IH, orb_false_r. unfold byte_of.
  destruct (Byte.of_N c) as [b|] eqn:E; [|reflexivity].
  apply Byte.to_of_N in E. destruct (Byte.eqb x0a b) eqn:Q; [|reflexivity].
  apply Byte.byte_dec_bl in Q. subst b. subst c. discriminate.
Qed.

(** The request line: json.dumps writes no newline, so the request has
    exactly one, its last byte. *)
Lemma request_line (rq : value) (bs : bytes) :
  encode_utf8 (json_dumps rq) = Some bs -> has_newline bs = false.
Proof.
  rewrite (encode_utf8_ascii _ (ascii_json_dumps rq)). intros [= <-].
  apply newline_free, printable_json_dumps.
Qed.

Lemma replied_outcome (w : world) (b : bytes) :
  replied w b ->
  outcome (main w (initial w)) = outcome (respond b (initial w)).
Proof.
  intros H. destruct (replied_respond w b H) as (s & Ho & He & ->).
  now apply respond_outcome.
Qed.

Lemma replied_course (w : world) (b : bytes) :
  replied w b ->
  exists c p q bs n,
    environ w = Some (c :: p) /\ json_loads (stdin w) = Ok (PDict q) /\
    encode_utf8 (json_dumps (request_of q)) = Some bs /\
    (1 <= n)%nat /\
    calls (final w) = session (c :: p) (bs ++ [x0a]) n /\
    sock (final w) = Closed.
Proof.
  unfold replied. intros H.
  destruct (main_frame w) as (-> & -> & _).
  destruct (request_reply_course w) as [_ C].
  destruct (request_reply w (initial w)) as [[b' | e] s]; [|discriminate].
  exact C.
Qed.

Lemma sendall_of_session (path : str) (data x : bytes) (n : nat)
      (rest : list call) :
  In (CSendall x)
     ([CGetenv BANJO_PERMISSION_SOCKET; CReadStdin; CSocket; CSetTimeout 60;
       CConnect path; CSendall data] ++ repeat (CRecv 4096) n ++ rest) ->
  x = data \/ In (CSendall x) rest.
Proof.
  cbn [app In]. rewrite in_app_iff.
  intros [H | [H | [H | [H | [H | [H | [H | H]]]]]]]; try discriminate.
  - left. now injection H.
  - apply repeat_spec in H. discriminate.
  - now right.
Qed.

(** ** The run as a whole *)

(** Every run ends in one of these ways: silently with status 0; with the
    allow or a deny document on standard output and status 0; with one of
    four diagnostics and status 0; with the diagnostic of line 31 and status
    1; or with the traceback of an exception that the script does not catch
    and status 1.  So the status is 0 or 1, standard output never holds
    anything but one document, the error channel never more than one line,
    and a document is never accompanied by a line on the error channel. *)
Theorem run_ending (w : world) :
  ending (exit_status w) (stdout (final w)) (stderr (final w)).
Proof.
  pose proof (run_cases w) as C. rewrite !outcome_run in C.
  destruct C as [[_ H] | [_ [(msg & _ & H) | [(v & _ & _ & H)
                | [_ [[_ H] | [(msg & _ & H) | (b & _ & H)]]]]]]];
    try (injection H as -> -> ->;
         first [ constructor; split; [reflexivity | discriminate]
               | constructor ]).
  pose proof (respond_ending b (initial w) eq_refl eq_refl) as R.
  rewrite <- H in R. apply R.
Qed.

(** When a decision is printed, nothing else happened: the exit status is
    0, the error channel is empty, a response was read and the socket was
    closed. *)
Theorem decision_printed_cleanly (w : world) :
  stdout (final w) <> [] ->
  exit_status w = 0%Z /\ stderr (final w) = [] /\
  sock (final w) = Closed /\ exists b, replied w b.
Proof.
  intros X. pose proof (run_cases w) as C. rewrite !outcome_run in C.
  destruct C as [[_ H] | [_ [(msg & _ & H) | [(v & _ & _ & H)
                | [_ [[_ H] | [(msg & _ & H) | (b & Hb & H)]]]]]]];
    try (injection H as _ H _; rewrite H in X; now contradiction X).
  pose proof (respond_ending b (initial w) eq_refl eq_refl) as R.
  rewrite <- H in R. destruct R as (Re & Rx).
  split; [|split; [now apply Rx | split]].
  - destruct Re; try reflexivity; now contradiction X.
  - now destruct (replied_course w b Hb) as (c & p & q & bs & n & H').
  - now exists b.
Qed.

Lemma decision_printed_cleanly_witness :
  stdout (final w_deny) <> [] /\
  exit_status w_deny = 0%Z /\ stderr (final w_deny) = [] /\
  sock (final w_deny) = Closed /\ exists b, replied w_deny b.
Proof.
  assert (H : stdout (final w_deny) <> []) by (vm_compute; discriminate).
  split; [exact H | exact (decision_printed_cleanly w_deny H)].
Defined.

(** ** The calls on the socket *)

(** A run that reads a response makes these calls and no others, in this
    order: the lookup of the variable, the read of standard input, socket,
    settimeout(60), connect to the path of the variable, one sendall of the
    request line, one recv or more, close.  The request line is the UTF-8
    encoding of json.dumps of the request, followed by a newline. *)
Theorem calls_of_a_reply (w : world) (b : bytes) :
  replied w b ->
  exists path q bs reads,
    environ w = Some path /\ json_loads (stdin w) = Ok (PDict q) /\
    encode_utf8 (json_dumps (request_of q)) = Some bs /\
    (1 <= reads)%nat /\
    calls (final w) = session path (bs ++ [x0a]) reads /\
    sock (final w) = Closed.
Proof.
  intros H.
  destruct (replied_course w b H) as (c & p & q & bs & n & H').
  now exists (c :: p), q, bs, n.
Qed.

Lemma calls_of_a_reply_witness :
  replied w_slow (line "{'decision': 'allow'}") /\
  exists path q bs reads,
    environ w_slow = Some path /\ json_loads (stdin w_slow) = Ok (PDict q) /\
    encode_utf8 (json_dumps (request_of q)) = Some bs /\
    (1 <= reads)%nat /\
    calls (final w_slow) = session path (bs ++ [x0a]) reads /\
    sock (final w_slow) = Closed.
Proof.
  assert (H : replied w_slow (line "{'decision': 'allow'}"))
    by (vm_compute; reflexivity).
  split; [exact H | exact (calls_of_a_reply w_slow _ H)].
Defined.

(** The calls of any run are an initial part of that sequence: nothing is
    sent before the timeout is set and the connection made, nothing is
    received before the request is sent, the request is sent once, and
    nothing follows close. *)
Theorem calls_in_script_order (w : world) :
  exists path data reads k,
    calls (final w) = firstn k (session path data reads).
Proof.
  destruct (main_frame w) as (-> & _ & _).
  destruct (request_reply_course w) as [_ C].
  destruct (request_reply w (initial w)) as [[b | e] s]; cbn [snd].
  - destruct C as (c & p & q & bs & n & _ & _ & _ & _ & -> & _).
    exists (c :: p), (bs ++ [x0a]), n,
           (List.length (session (c :: p) (bs ++ [x0a]) n)).
    now rewrite firstn_all.
  - destruct C as [_ [-> | [-> | [-> | (c & p & q & bs & _ & _ & _ & C)]]]].
    + now exists [], [], 0%nat, 1%nat.
    + now exists [], [], 0%nat, 2%nat.
    + now exists [], [], 0%nat, 3%nat.
    + destruct C as [-> | [n ->]].
      * now exists (c :: p), [], 0%nat, 5%nat.
      * exists (c :: p), (bs ++ [x0a]), n, (6 + n)%nat.
        unfold session. cbn [app firstn Nat.add]. do 6 f_equal.
        rewrite <- (repeat_length (CRecv 4096) n) at 2.
        now rewrite firstn_length_app.
Qed.



(** Whatever a run sends on the socket is one line: the encoding of
    json.dumps of the request built from standard input, which holds no
    newline, followed by a newline. *)
Theorem request_is_one_line (w : world) (data : bytes) :
  In (CSendall data) (calls (final w)) ->
  exists q bs,
    json_loads (stdin w) = Ok (PDict q) /\
    encode_utf8 (json_dumps (request_of q)) = Some bs /\
    data = bs ++ [x0a] /\ has_newline bs = false.
Proof.
  destruct (main_frame w) as (-> & _ & _).
  destruct (request_reply_course w) as [_ C].
  destruct (request_reply w (initial w)) as [[b | e] s]; cbn [snd].
  - destruct C as (c & p & q & bs & n & _ & J & E & _ & -> & _).
    intros H. apply sendall_of_session in H.
    destruct H as [-> | H]; [|cbn in H; intuition discriminate].
    exists q, bs. repeat split; try assumption. now apply request_line in E.
  - destruct C as [_ [-> | [-> | [-> | (c & p & q & bs & _ & J & E & C)]]]];
      try (cbn; intuition discriminate).
    destruct C as [-> | [n ->]]; [cbn; intuition discriminate|].
    intros H. rewrite <- (app_nil_r (repeat _ n)) in H.
    apply sendall_of_session in H. destruct H as [-> | []].
    exists q, bs. repeat split; try assumption. now apply request_line in E.
Qed.

Lemma request_is_one_line_witness :
  exists data,
    In (CSendall data) (calls (final w_silent)) /\
    exists q bs,
      json_loads (stdin w_silent) = Ok (PDict q) /\
      encode_utf8 (json_dumps (request_of q)) = Some bs /\
      data = bs ++ [x0a] /\ has_newline bs = false.
Proof.
  eexists. eassert (H : In (CSendall _) (calls (final w_silent))).
  { vm_compute. do 5 right. left. reflexivity. }
  split; [exact H | exact (request_is_one_line w_silent _ H)].
Defined.

(** No call on the socket blocks for more than 60 seconds, so a run waits at
    most 60 seconds for connect, for sendall and for each answer of the peer
    to recv. *)
Theorem waits_60_seconds_a_call (w : world) :
  clock (final w) <= limit * (2 + N.of_nat (List.length (on_recv w))).
Proof.
  destruct (main_frame w) as (_ & _ & ->).
  apply request_reply_course.
Qed.

(** ** Input and responses the script is not written for *)

(** With an endpoint configured and a JSON document on standard input that
    is not an object (a list, a string, a number, true, false, null),
    [input_data.get] raises AttributeError outside the try statement: the
    run ends with a traceback and status 1, and no socket is made. *)
Theorem input_not_an_object (w : world) (v : value) :
  configured w ->
  json_loads (stdin w) = Ok v -> not_object v ->
  exit_status w = 1%Z /\ stdout (final w) = [] /\
  stderr (final w) = [Traceback AttributeError] /\
  calls (final w) = [CGetenv BANJO_PERMISSION_SOCKET; CReadStdin] /\
  sock (final w) = NoSocket.
Proof.
  intros (c & p & E) J Hv. unfold exit_status, final, run.
  rewrite main_eq, E, J. destruct v; try contradiction; repeat split.
Qed.

Lemma input_not_an_object_witness :
  json_loads (stdin w_list_input) = Ok (PList [PInt 1; PInt 2]) /\
  exit_status w_list_input = 1%Z /\ stdout (final w_list_input) = [] /\
  stderr (final w_list_input) = [Traceback AttributeError] /\
  calls (final w_list_input) = [CGetenv BANJO_PERMISSION_SOCKET; CReadStdin] /\
  sock (final w_list_input) = NoSocket.
Proof.
  assert (J : json_loads (stdin w_list_input) = Ok (PList [PInt 1; PInt 2]))
    by (vm_compute; reflexivity).
  split; [exact J|].
  apply (input_not_an_object w_list_input (PList [PInt 1; PInt 2]));
    [now exists 47, (lit "tmp/banjo.sock") | exact J | exact I].
Defined.

(** A response that is not UTF-8 makes [decode] raise UnicodeDecodeError,
    which no except clause catches: the run ends with a traceback and status
    1, nothing on standard output, the socket closed. *)
Theorem reply_not_utf8 (w : world) (b : bytes) :
  replied w b -> b <> [] -> decode_utf8 b = None ->
  exit_status w = 1%Z /\ stdout (final w) = [] /\
  stderr (final w) = [Traceback UnicodeDecodeError] /\
  sock (final w) = Closed.
Proof.
  intros H Hb Hd. split; [|split; [|split]];
    try (destruct (replied_respond w b H) as (s & Ho & He & M);
         unfold exit_status, final, run; rewrite M, respond_eq;
         destruct b; [contradiction|]; rewrite Hd; cbn;
         now rewrite ?Ho, ?He).
  now destruct (replied_course w b H) as (c & p & q & bs & n & H').
Qed.

Lemma reply_not_utf8_witness :
  replied w_latin1 [xe9; x0a] /\
  exit_status w_latin1 = 1%Z /\ stdout (final w_latin1) = [] /\
  stderr (final w_latin1) = [Traceback UnicodeDecodeError] /\
  sock (final w_latin1) = Closed.
Proof.
  assert (H : replied w_latin1 [xe9; x0a]) by (vm_compute; reflexivity).
  split; [exact H|].
  apply (reply_not_utf8 w_latin1 [xe9; x0a] H);
    [discriminate | vm_compute; reflexivity].
Defined.

(** A response that holds a JSON document other than an object (a list, a
    string, a number, true, false, null) makes [response.get] raise
    AttributeError, which no except clause catches: the run ends with a
    traceback and status 1, nothing on standard output, the socket
    closed. *)
Theorem reply_not_an_object (w : world) (b : bytes) (t : str) (v : value) :
  replied w b -> decode_utf8 b = Some t ->
  json_loads (strip t) = Ok v -> not_object v ->
  exit_status w = 1%Z /\ stdout (final w) = [] /\
  stderr (final w) = [Traceback AttributeError] /\
  sock (final w) = Closed.
Proof.
  intros H Hd Hv Hn. split; [|split; [|split]];
    try (destruct (replied_respond w b H) as (s & Ho & He & M);
         unfold exit_status, final, run; rewrite M, respond_eq;
         destruct b;
         [cbn in Hd; injection Hd as <-; vm_compute in Hv; discriminate|];
         rewrite Hd, Hv, emit_eq; destruct v; try contradiction; cbn;
         now rewrite ?Ho, ?He).
  now destruct (replied_course w b H) as (c & p & q & bs & n & H').
Qed.

Lemma reply_not_an_object_witness :
  replied w_list (line "[]") /\
  exit_status w_list = 1%Z /\ stdout (final w_list) = [] /\
  stderr (final w_list) = [Traceback AttributeError] /\
  sock (final w_list) = Closed.
Proof.
  assert (H : replied w_list (line "[]")) by (vm_compute; reflexivity).
  split; [exact H|].
  apply (reply_not_an_object
           w_list (line "[]") (lit "[]" ++ [10]) (PList []) H);
    [vm_compute; reflexivity | vm_compute; reflexivity | exact I].
Defined.

(** ** The message of a denial *)



(** ** What the outcome depends on *)

(** Once a response has been read, what the caller sees depends on its
    bytes alone: not on how the peer split them into chunks, nor on how long
    it took, nor on the request. *)
Theorem outcome_depends_on_reply (w w' : world) (b : bytes) :
  replied w b -> replied w' b ->
  exit_status w = exit_status w' /\
  stdout (final w) = stdout (final w') /\
  stderr (final w) = stderr (final w').
Proof.
  intros H H'.
  pose proof (replied_outcome w b H) as E.
  pose proof (replied_outcome w' b H') as E'.
  rewrite (respond_outcome b (initial w) (initial w') eq_refl eq_refl) in E.
  rewrite <- E', !outcome_run in E. now injection E as -> -> ->.
Qed.

Lemma outcome_depends_on_reply_witness :
  on_recv w_allow <> on_recv w_slow /\
  exit_status w_allow = exit_status w_slow /\
  stdout (final w_allow) = stdout (final w_slow) /\
  stderr (final w_allow) = stderr (final w_slow).
Proof.
  split; [vm_compute; discriminate|].
  apply (outcome_depends_on_reply
           w_allow w_slow (line "{'decision': 'allow'}"));
    vm_compute; reflexivity.
Defined.

(** Of the object on standard input, only the values of tool_name,
    tool_input, tool_use_id and session_id matter: two inputs that agree on
    these four keys give the same run, whatever else they hold and in
    whatever order. *)
Theorem other_input_keys_ignored (w : world) (text : str) (q q' : dict) :
  json_loads (stdin w) = Ok (PDict q) ->
  json_loads text = Ok (PDict q') ->
  (forall key, In key forwarded ->
               dict_lookup q' (lit key) = dict_lookup q (lit key)) ->
  run (with_stdin w text) = run w.
Proof.
  intros J J' H. unfold run. rewrite (main_eq w), (main_eq (with_stdin w text)).
  cbn [environ stdin with_stdin]. rewrite J, J'.
  replace (request_of q') with (request_of q).
  - reflexivity.
  - unfold request_of, get_or.
    rewrite !H by (cbn; auto). reflexivity.
Qed.

Lemma other_input_keys_ignored_witness :
  query_with_more <> stdin w_allow /\
  run (with_stdin w_allow query_with_more) = run w_allow.
Proof.
  split; [vm_compute; discriminate|].
  eapply (other_input_keys_ignored w_allow query_with_more).
  - vm_compute; reflexivity.
  - vm_compute; reflexivity.
  - intros key [<- | [<- | [<- | [<- | []]]]]; vm_compute; reflexivity.
Defined.

(** ** Decisions are the authority's *)

Lemma replied_received (w : world) (b : bytes) (t : str) (v : value) :
  replied w b -> b <> [] -> decode_utf8 b = Some t ->
  json_loads (strip t) = Ok v ->
  received w v.
Proof.
  intros H Hb Hd Hv. destruct (replied_inv w b H) as (s & R & _).
  unfold received, receive, bind. rewrite R, parse_response_eq.
  destruct b; [contradiction|]. now rewrite Hd, Hv.
Qed.

Lemma decision_of (d : dict) (s : str) :
  s <> lit "ask" ->
  eq_str (get_or d "decision" (PStr (lit "ask"))) s = true ->
  dict_lookup d (lit "decision") = Some (PStr s).
Proof.
  intros Hs H. apply eq_str_true in H. unfold get_or in H.
  destruct (dict_lookup d (lit "decision")); [now rewrite H|].
  injection H as H. now contradiction Hs.
Qed.

Lemma allow_is_not_deny (message : value) :
  printed (deny_output message) <> printed allow_output.
Proof.
  unfold printed, deny_output, allow_output. intros H.
  cbn in H. discriminate H.
Qed.

Lemma printed_not_empty (document : value) : printed document <> [].
Proof. unfold printed. now destruct (json_dumps document). Qed.

(** What a run prints, and the response it printed it for. *)
Lemma printed_for (w : world) :
  stdout (final w) = [] \/
  exists response,
    received w (PDict response) /\
    ((dict_lookup response (lit "decision") = Some (PStr (lit "allow")) /\
      stdout (final w) = printed allow_output) \/
     (dict_lookup response (lit "decision") = Some (PStr (lit "deny")) /\
      exists message,
        stdout (final w) = printed (deny_output message))).
Proof.
  pose proof (run_cases w) as C. rewrite !outcome_run in C.
  destruct C as [[_ H] | [_ [(msg & _ & H) | [(v & _ & _ & H)
                | [_ [[_ H] | [(msg & _ & H) | (b & Hb & H)]]]]]]];
    try (injection H as _ -> _; now left).
  rewrite respond_eq in H.
  destruct b as [|x b]; [injection H as _ -> _; now left|].
  destruct (decode_utf8 (x :: b)) as [t|] eqn:Hd;
    [|injection H as _ -> _; now left].
  destruct (json_loads (strip t)) as [v | e] eqn:J.
  2:{ destruct (json_loads_throws _ _ J) as [msg ->].
      injection H as _ -> _; now left. }
  assert (Hr : received w v)
    by (apply (replied_received w (x :: b) t v); easy).
  rewrite emit_eq in H.
  destruct v as [| y | y | y | y | y | d];
    try (injection H as _ -> _; now left).
  cbv zeta in H.
  destruct (eq_str _ (lit "allow")) eqn:Qa.
  { injection H as _ -> _. right. exists d. split; [exact Hr|]. left.
    split; [|reflexivity]. apply decision_of; [discriminate | exact Qa]. }
  destruct (eq_str _ (lit "deny")) eqn:Qd.
  { injection H as _ -> _. right. exists d. split; [exact Hr|]. right.
    split; [apply decision_of; [discriminate | exact Qd]|].
    eexists. reflexivity. }
  injection H as _ -> _. now left.
Qed.

(** The allow document is printed only when a response was received whose
    decision is "allow", and a deny document only when one was received
    whose decision is "deny": no failure, and no other response, makes the
    script grant or refuse a permission. *)
Theorem decisions_come_from_the_authority (w : world) :
  (stdout (final w) = printed allow_output ->
   exists response,
     received w (PDict response) /\
     dict_lookup response (lit "decision") = Some (PStr (lit "allow")))
  /\
  (forall message,
      stdout (final w) = printed (deny_output message) ->
      exists response,
        received w (PDict response) /\
        dict_lookup response (lit "decision") = Some (PStr (lit "deny"))).
Proof.
  split; [intros X | intros m X];
    (destruct (printed_for w)
      as [H | (d & Hr & [[Hd H] | [Hd [m' H]]])];
     [rewrite H in X; symmetry in X; now apply printed_not_empty in X | |]).
  - now exists d.
  - rewrite H in X. now apply allow_is_not_deny in X.
  - rewrite H in X. symmetry in X. now apply allow_is_not_deny in X.
  - now exists d.
Qed.

Lemma decisions_come_from_the_authority_witness :
  exists response,
    received w_allow (PDict response) /\
    dict_lookup response (lit "decision") = Some (PStr (lit "allow")).
Proof.
  apply (proj1 (decisions_come_from_the_authority w_allow)).
  vm_compute. reflexivity.
Defined.

(** ** Answers that come in time are read *)

Lemma recv_loop_reads_all (inbox0 : list (reply bytes)) (tail : bytes) :
  read_until_newline inbox0 tail ->
  forall (fuel : nat) (buf : bytes) (s : state),
    inbox s = inbox0 -> timeout s = Some limit ->
    (List.length inbox0 < fuel)%nat ->
    has_newline buf = false ->
    exists s', recv_loop fuel buf s = (Ok (buf ++ tail), s').
Proof.
  induction 1 as [| t post Ht | t chunk post Ht Hn
                  | r rest tail (t & chunk & -> & Ht & Hc & Hn) _ IH];
    intros fuel buf s Hi Hto Hf Hb;
    (destruct fuel as [|fuel]; [cbn in Hf; lia|]).
  - rewrite recv_loop_S, recv_eq, Hi. cbn [is_empty].
    rewrite app_nil_r. eexists. reflexivity.
  - rewrite recv_loop_S, recv_eq, Hi.
    rewrite blocking_done by assumption. cbn [is_empty].
    rewrite app_nil_r. eexists. reflexivity.
  - rewrite recv_loop_S, recv_eq, Hi.
    rewrite blocking_done by assumption.
    destruct chunk as [|x chunk]; [discriminate|]. cbn [is_empty].
    rewrite has_newline_app, Hn, orb_true_r. eexists. reflexivity.
  - assert (Hbc : has_newline (buf ++ chunk) = false)
      by now rewrite has_newline_app, Hb, Hn.
    rewrite (recv_loop_step fuel buf s t chunk rest Hto Hi Ht Hc Hbc).
    cbn [payload]. rewrite app_assoc.
    apply IH; try assumption; try reflexivity.
    cbn [List.length] in Hf. lia.
Qed.

(** When the endpoint is configured, standard input holds a JSON object,
    and connect, sendall and the answers of the peer up to the first chunk
    with a newline (or up to its closing the connection) each come within 60
    seconds, the run reads these chunks as its response. *)
Theorem answer_in_time_is_read (w : world) (t t' : N) (b : bytes) :
  configured w -> object_input w ->
  on_socket w = None ->
  on_connect w = Completes t tt -> t < limit ->
  on_sendall w = Completes t' tt -> t' < limit ->
  read_until_newline (on_recv w) b ->
  replied w b.
Proof.
  intros (c & p & E) (q & J) Hs Hc Ht Hd Ht' Hr.
  unfold replied. rewrite request_reply_eq, E, J.
  destruct (exchange_eq w (c :: p) (request_of q) (after_stdin w) Hs)
    as (bs & _ & ->).
  rewrite Hc, blocking_done by (reflexivity || assumption).
  rewrite Hd, blocking_done by (reflexivity || assumption).
  match goal with
  | |- context [recv_loop ?f [] ?s] =>
    destruct (recv_loop_reads_all (on_recv w) b Hr f [] s)
      as [s' ->]; try reflexivity
  end.
  cbn [List.length inbox tick sending log set_sock connecting set_timeout
       after_stdin after_getenv initial]. lia.
Qed.

Lemma answer_in_time_is_read_witness :
  replied w_slow (bquoted "{'decision': " ++ line "'allow'}").
Proof.
  apply (answer_in_time_is_read w_slow 1 1).
  - now exists 47, (lit "tmp/banjo.sock").
  - eexists. vm_compute. reflexivity.
  - reflexivity.
  - reflexivity.
  - reflexivity.
  - reflexivity.
  - reflexivity.
  - apply read_more.
    + exists 45000, (bquoted "{'decision': ").
      split; [reflexivity|]. split; [reflexivity|].
      split; [discriminate | vm_compute; reflexivity].
    + apply read_newline; [reflexivity | vm_compute; reflexivity].
Defined.
